(** * Drawer stack provider: the modal stack store, its hook API and its renderer

    A shallow embedding of [src/providers/root/drawer-stack-provider.tsx].

    - [JS]     the array and string primitives the file relies on
               ([concat], [filter], [slice], template literals);
    - [Store]  the shared stack ([modalStackAtom]), the side table
               ([modalIdToPropsMap]), [useDrawerStack().present], the closure it
               returns and the shared [actions];
    - [Mem]    the same operations over a heap of array and record objects, to
               speak about identity (a new array per mutation);
    - [View]   the [DrawerStack] renderer, the [Modal] element, its handlers
               and the route-change effect.

    - [App]    programs over the store: several hook instances, each with
               its counter, and the closures [present] returned.

    The ref [currentCount] is a JavaScript number that only counts calls from
    zero: an exact integer, printed by the template with its decimal digits.
    It is modelled by [N]. The hooks and components the file imports
    ([useIsMobile], [useIsClient], [sheetStackAtom], [usePathname], the
    dialog and sheet primitives, the animation controller) are inputs of the
    model: what they return is a parameter, what they call back is an input
    of the page. *)

From Stdlib Require Import ZArith NArith QArith String Ascii List Lia.
From Stdlib Require Import DecimalString DecimalN.
From stdpp Require Import base option list strings gmap.

Local Open Scope string_scope.
Local Open Scope list_scope.

(* ===================================================================== *)
(** ** JavaScript primitives *)
(* ===================================================================== *)

Module JS.

(** [Array.prototype.concat] with one non-array argument. *)
Definition concat {A} (p : list A) (x : A) : list A := p ++ [x].

(** [Array.prototype.filter]: keeps, in order, the elements the callback
    accepts. *)
Definition filter {A} (f : A -> bool) (p : list A) : list A := List.filter f p.

(** The clamping of a relative index of [slice] against the length [len]:
    a negative index counts from the end, and the result stays in
    [0 .. len]. *)
Definition relative_index (len i : Z) : Z :=
  if (i <? 0)%Z then Z.max (len + i) 0 else Z.min i len.

(** [Array.prototype.slice(start, end)]. *)
Definition slice {A} (p : list A) (start end_ : Z) : list A :=
  let len := Z.of_nat (length p) in
  let k := relative_index len start in
  let final := relative_index len end_ in
  let count := Z.max (final - k) 0 in
  firstn (Z.to_nat count) (skipn (Z.to_nat k) p).

(** [String(n)] for a non-negative integer: its decimal digits. *)
Definition string_of_number (n : N) : string :=
  NilEmpty.string_of_uint (N.to_uint n).

(** [a !== b] on strings. *)
Definition strict_neq (a b : string) : bool := negb (String.eqb a b).

(** [obj[k] = v] on a plain object ([{}]), as far as its own keys go. The
    key [__proto__] is an accessor of [Object.prototype]: the assignment
    sets the prototype of [obj] and adds no key. Any other key is added,
    or overwritten when [obj] has it. *)
Definition assign {V} (obj : gmap string V) (k : string) (v : V)
    : gmap string V :=
  if String.eqb k "__proto__" then obj else <[k := v]> obj.

End JS.

(* ===================================================================== *)
(** ** The data model *)
(* ===================================================================== *)

(** A React function component, [FC<...>]: an opaque reference. *)
Inductive FC : Type := FCRef (n : nat).

(** A caller-supplied [() => void]: an opaque reference; calling it is
    observed in the trace of the view. *)
Inductive Callback : Type := CallbackRef (n : nat).

(** [title: string | FC<ModalContentPropsInternal>]. *)
Inductive Title : Type :=
| TitleText (s : string)
| TitleComponent (f : FC).

Inductive Position : Type := Left | Right | Top | Bottom | Center.

(** [interface ModalProps]; an optional field is an [option]. *)
Record ModalProps : Type := {
  title : Title;
  content : FC;
  CustomModalComponent : option FC;
  clickOutsideToDismiss : option bool;
  modalClassName : option string;
  modalContainerClassName : option string;
  position : option Position;
  onClose : option Callback
}.

(** [ModalProps & { id: string }], an entry of the stack (the source has no
    name for the type). The field [id] is [item_id] here and the other fields
    are [item_props]. *)
Record Item : Type := {
  item_props : ModalProps;
  item_id : string
}.

Definition ids (p : list Item) : list string := List.map item_id p.

(* ===================================================================== *)
(** ** The stack store and its operations *)
(* ===================================================================== *)

Module Store.

(** The module-level state: [modalStackAtom]'s value and the own keys of
    [modalIdToPropsMap]. *)
Record t : Type := {
  modalStack : list Item;
  modalIdToPropsMap : gmap string Item
}.

(** [atom([])] and [{}]. *)
Definition init : t := {| modalStack := []; modalIdToPropsMap := ∅ |}.

(** [jotaiStore.set(modalStackAtom, updater)]. *)
Definition set (updater : list Item -> list Item) (s : t) : t :=
  {| modalStack := updater (modalStack s);
     modalIdToPropsMap := modalIdToPropsMap s |}.

(** One instance of the hook [useDrawerStack]: [useId()] and the ref
    [currentCount]. *)
Record Hook : Type := {
  id : string;
  currentCount : N
}.

(** [`${id}-${currentCount.current++}`], the value of the template. *)
Definition modalId (id : string) (count : N) : string :=
  id ++ "-" ++ JS.string_of_number count.

(** The result of a call of [present]: the hook after [currentCount.current++],
    the store, and the id captured by the returned closure. *)
Record Presented : Type := {
  hook_after : Hook;
  store_after : t;
  captured : string
}.

(** [present(props)]. [props.id] is the separate argument [pid]. The updater
    builds [{...props, id: props.id ?? modalId}], records it in the side
    table and appends it; the closure captures [modalId]. *)
Definition present (h : Hook) (props : ModalProps) (pid : option string)
    (s : t) : Presented :=
  let modalId := modalId (id h) (currentCount h) in
  let modalProps :=
    {| item_props := props; item_id := default modalId pid |} in
  {| hook_after := {| id := id h; currentCount := currentCount h + 1 |};
     store_after :=
       {| modalStack := JS.concat (modalStack s) modalProps;
          modalIdToPropsMap :=
            JS.assign (modalIdToPropsMap s) (item_id modalProps) modalProps |};
     captured := modalId |}.

(** The closure [present] returns, applied: it filters on the captured
    [modalId]. *)
Definition closure (modalId : string) (s : t) : t :=
  set (JS.filter (fun item => JS.strict_neq (item_id item) modalId)) s.

(** [actions.dismiss(id)]. *)
Definition dismiss (id : string) (s : t) : t :=
  set (JS.filter (fun item => JS.strict_neq (item_id item) id)) s.

(** [actions.dismissTop()]. *)
Definition dismissTop (s : t) : t :=
  set (fun p => JS.slice p 0 (-1)) s.

(** [actions.dismissAll()]. *)
Definition dismissAll (s : t) : t :=
  set (fun _ => []) s.

(** Several calls of [present] in a row from one hook instance, none with
    an id of its own. *)
Fixpoint present_all (h : Hook) (ps : list ModalProps) (s : t) : Hook * t :=
  match ps with
  | [] => (h, s)
  | props :: ps' =>
      let r := present h props None s in
      present_all (hook_after r) ps' (store_after r)
  end.

(** A call of one of the operations that write the store. *)
Inductive Op : Type :=
| Present (h : Hook) (props : ModalProps) (pid : option string)
| Closure (modalId : string)
| Dismiss (id : string)
| DismissTop
| DismissAll.

Definition apply (o : Op) (s : t) : t :=
  match o with
  | Present h props pid => store_after (present h props pid s)
  | Closure modalId => closure modalId s
  | Dismiss id => dismiss id s
  | DismissTop => dismissTop s
  | DismissAll => dismissAll s
  end.

Definition apply_all (os : list Op) (s : t) : t :=
  fold_left (fun s o => apply o s) os s.

End Store.

(* ===================================================================== *)
(** ** Programs over the store: many hook instances, returned closures *)
(* ===================================================================== *)

Module App.

(** The store, the [currentCount] of every hook instance (keyed by its
    [useId()], which React makes unique per instance; an instance not yet
    used counts from [0]) and the ids captured by the closures returned so
    far, oldest first. *)
Record t : Type := {
  store : Store.t;
  counters : gmap string N;
  closures : list string
}.

Definition init : t :=
  {| store := Store.init; counters := ∅; closures := [] |}.

Definition hook (w : t) (scope : string) : Store.Hook :=
  {| Store.id := scope;
     Store.currentCount := default 0%N (counters w !! scope) |}.

Inductive Op : Type :=
| Present (scope : string) (props : ModalProps) (pid : option string)
| CallClosure (k : nat)
| Dismiss (id : string)
| DismissTop
| DismissAll.

Definition step (w : t) (o : Op) : t :=
  match o with
  | Present scope props pid =>
      let r := Store.present (hook w scope) props pid (store w) in
      {| store := Store.store_after r;
         counters :=
           <[scope := Store.currentCount (Store.hook_after r)]> (counters w);
         closures := closures w ++ [Store.captured r] |}
  | CallClosure k =>
      match closures w !! k with
      | Some modalId =>
          {| store := Store.closure modalId (store w);
             counters := counters w; closures := closures w |}
      | None => w
      end
  | Dismiss id =>
      {| store := Store.dismiss id (store w);
         counters := counters w; closures := closures w |}
  | DismissTop =>
      {| store := Store.dismissTop (store w);
         counters := counters w; closures := closures w |}
  | DismissAll =>
      {| store := Store.dismissAll (store w);
         counters := counters w; closures := closures w |}
  end.

Definition run (w : t) (os : list Op) : t := fold_left step os w.

(** The calls of [present] of a program pass no id of their own. *)
Definition synthesized_only (os : list Op) : bool :=
  forallb (fun o => match o with
                    | Present _ _ (Some _) => false
                    | _ => true
                    end) os.

End App.

(* ===================================================================== *)
(** ** The same operations over a heap of objects *)
(* ===================================================================== *)

Module Mem.

Definition loc : Type := positive.

(** Array objects hold references to record objects; [atom] is the array
    [modalStackAtom] currently holds, [table] is [modalIdToPropsMap]. *)
Record Heap : Type := {
  arrays : gmap positive (list loc);
  records : gmap positive Item;
  atom : loc;
  table : gmap string loc
}.

(** What a JavaScript operation throws when its receiver is not the object
    it expects. *)
Inductive Thrown : Type := TypeError.

Definition M (A : Type) : Type := Heap -> Thrown + (A * Heap).

Definition ret {A} (x : A) : M A := fun h => inr (x, h).

Definition bind {A B} (m : M A) (k : A -> M B) : M B :=
  fun h => match m h with
           | inl e => inl e
           | inr (x, h') => k x h'
           end.

Notation "'let*' x := m 'in' k" := (bind m (fun x => k))
  (at level 10, x name, m at level 100, k at level 200).

Definition read_array (a : loc) : M (list loc) :=
  fun h => match arrays h !! a with
           | Some l => inr (l, h)
           | None => inl TypeError
           end.

Definition read_record (r : loc) : M Item :=
  fun h => match records h !! r with
           | Some m => inr (m, h)
           | None => inl TypeError
           end.

(** A new array object, at an address no array has. *)
Definition alloc_array (l : list loc) : M loc :=
  fun h => let a := fresh (dom (arrays h)) in
           inr (a, {| arrays := <[a := l]> (arrays h); records := records h;
                      atom := atom h; table := table h |}).

(** A new record object: the value of an object literal. *)
Definition alloc_record (m : Item) : M loc :=
  fun h => let r := fresh (dom (records h)) in
           inr (r, {| arrays := arrays h; records := <[r := m]> (records h);
                      atom := atom h; table := table h |}).

Definition table_put (k : string) (r : loc) : M unit :=
  fun h => inr (tt, {| arrays := arrays h; records := records h;
                       atom := atom h; table := JS.assign (table h) k r |}).

Definition atom_get : M loc := fun h => inr (atom h, h).

Definition atom_set (a : loc) : M unit :=
  fun h => inr (tt, {| arrays := arrays h; records := records h;
                       atom := a; table := table h |}).

Fixpoint filterM (f : loc -> M bool) (l : list loc) : M (list loc) :=
  match l with
  | [] => ret []
  | x :: l' =>
      let* b := f x in
      let* rest := filterM f l' in
      ret (if b then x :: rest else rest)
  end.

(** [p.concat(x)], [p.filter(f)], [p.slice(start, end)]: each reads the
    receiver and allocates its result. *)
Definition array_concat (p : loc) (x : loc) : M loc :=
  let* l := read_array p in alloc_array (JS.concat l x).

Definition array_filter (p : loc) (f : loc -> M bool) : M loc :=
  let* l := read_array p in
  let* l' := filterM f l in
  alloc_array l'.

Definition array_slice (p : loc) (start end_ : Z) : M loc :=
  let* l := read_array p in alloc_array (JS.slice l start end_).

(** [(item) => item.id !== id]. *)
Definition id_differs (id : string) (item : loc) : M bool :=
  let* m := read_record item in ret (JS.strict_neq (item_id m) id).

(** [jotaiStore.set(modalStackAtom, updater)]. *)
Definition set (updater : loc -> M loc) : M unit :=
  let* p := atom_get in
  let* p' := updater p in
  atom_set p'.

Definition present (h : Store.Hook) (props : ModalProps)
    (pid : option string) : M (Store.Hook * string) :=
  let modalId := Store.modalId (Store.id h) (Store.currentCount h) in
  let* _ := set (fun p =>
         let* modalProps := alloc_record
           {| item_props := props; item_id := default modalId pid |} in
         let* _ := table_put (default modalId pid) modalProps in
         array_concat p modalProps) in
  ret ({| Store.id := Store.id h;
          Store.currentCount := Store.currentCount h + 1 |}, modalId).

Definition closure (modalId : string) : M unit :=
  set (fun p => array_filter p (id_differs modalId)).

Definition dismiss (id : string) : M unit :=
  set (fun p => array_filter p (id_differs id)).

Definition dismissTop : M unit :=
  set (fun p => array_slice p 0 (-1)).

(** [jotaiStore.set(modalStackAtom, [])]: the literal is a new array. *)
Definition dismissAll : M unit :=
  let* a := alloc_array [] in atom_set a.

Definition exec (o : Store.Op) : M unit :=
  match o with
  | Store.Present h props pid => let* _ := present h props pid in ret tt
  | Store.Closure modalId => closure modalId
  | Store.Dismiss id => dismiss id
  | Store.DismissTop => dismissTop
  | Store.DismissAll => dismissAll
  end.

(** A program: the operations one after the other. *)
Fixpoint exec_all (os : list Store.Op) : M unit :=
  match os with
  | [] => ret tt
  | o :: os' => let* _ := exec o in exec_all os'
  end.

(** The references [l] point to the records [p]. *)
Definition denotes (h : Heap) (l : list loc) (p : list Item) : Prop :=
  Forall2 (fun r m => records h !! r = Some m) l p.

(** The records an array of references denotes. *)
Definition deref (h : Heap) (l : list loc) : option (list Item) :=
  mapM (fun r => records h !! r) l.

(** The store of values a heap denotes. *)
Definition stack_of (h : Heap) : option (list Item) :=
  l ← arrays h !! atom h; deref h l.

(** Every reference of the heap points to an object. *)
Definition wf (h : Heap) : Prop :=
  is_Some (arrays h !! atom h) /\
  (forall a l r, arrays h !! a = Some l -> r ∈ l -> is_Some (records h !! r)) /\
  (forall k r, table h !! k = Some r -> is_Some (records h !! r)).

(** The side table of values a heap denotes. *)
Definition table_of (h : Heap) : gmap string Item :=
  omap (fun r => records h !! r) (table h).

(** The store of values a heap denotes. *)
Definition store_of (h : Heap) : option Store.t :=
  p ← stack_of h;
  Some {| Store.modalStack := p; Store.modalIdToPropsMap := table_of h |}.

(** [atom([])] and [{}]. *)
Definition init : Heap :=
  {| arrays := {[ 1%positive := [] ]}; records := ∅; atom := 1%positive;
     table := ∅ |}.

End Mem.

(* ===================================================================== *)
(** ** The renderer, the element and its handlers *)
(* ===================================================================== *)

Module View.

(** What an element reads when it renders: [useIsMobile()] and
    [jotaiStore.get(sheetStackAtom).length]. *)
Record Env : Type := {
  isMobile : bool;
  drawerLength : nat
}.

(** The callbacks an element passes to what it renders: [close],
    [onClose], [dismiss], [noticeModal] and [stopPropagation]. *)
Inductive Handler : Type :=
| Hclose
| HonClose
| Hdismiss
| HnoticeModal
| HstopPropagation.

(** The tree an element returns, with the props this file sets. *)
Inductive Element : Type :=
| PresentSheet (key : string) (title_ : Title) (zIndex : Z)
    (onOpenChange : Handler) (content_ : FC) (dismiss_ : Handler)
| CustomDialog (key : string) (onOpenChange : Handler) (overlayZIndex : Z)
    (containerClassName : option string) (containerOnClick : option Handler)
    (innerOnClick : Handler) (wrapper : FC) (content_ : FC)
    (dismiss_ : Handler)
| DefaultDialog (key : string) (onOpenChange : Handler) (overlayZIndex : Z)
    (position_ : Position) (containerClassName : option string)
    (containerOnClick : Handler) (modalStyle_zIndex : Z)
    (panelClassName : option string) (panelOnClick : Handler)
    (title_ : Title) (content_ : FC) (dismiss_ : Handler)
    (closeOnClick : Handler).

(** The truth value of an optional boolean ([undefined] is falsy). *)
Definition truthy (b : option bool) : bool := default false b.

(** [function Modal({ item, index })], the returned tree. *)
Definition Modal (env : Env) (item : Item) (index : nat) : Element :=
  let p := item_props item in
  let modalStyle := (99 + Z.of_nat index)%Z in
  if isMobile env then
    PresentSheet (item_id item) (title p)
      (1000 + Z.of_nat (drawerLength env))%Z HonClose (content p) Hclose
  else
    match CustomModalComponent p with
    | Some c =>
        CustomDialog (item_id item) HonClose 20 (modalContainerClassName p)
          (if truthy (clickOutsideToDismiss p) then Some Hdismiss else None)
          HstopPropagation c (content p) Hclose
    | None =>
        DefaultDialog (item_id item) HonClose 20
          (default Center (position p)) (modalContainerClassName p)
          (if truthy (clickOutsideToDismiss p) then Hdismiss else HnoticeModal)
          modalStyle (modalClassName p) HstopPropagation
          (title p) (content p) Hclose Hclose
    end.

(** [DrawerStack]: nothing before the client has rendered once, then one
    [Modal] per entry; [env i] is what the element at index [i] reads. *)
Definition DrawerStack (isClient : bool) (env : nat -> Env)
    (stack : list Item) : option (list Element) :=
  if negb isClient then None
  else Some (imap (fun index item => Modal (env index) item index) stack).

Definition key_of (e : Element) : string :=
  match e with
  | PresentSheet k _ _ _ _ _ => k
  | CustomDialog k _ _ _ _ _ _ _ _ => k
  | DefaultDialog k _ _ _ _ _ _ _ _ _ _ _ _ => k
  end.

(** The z-index this file computes for an element: the sheet's [zIndex]
    prop, the [modalStyle] of the default panel; a custom container gets
    none. *)
Definition zIndex_of (e : Element) : option Z :=
  match e with
  | PresentSheet _ _ z _ _ _ => Some z
  | CustomDialog _ _ _ _ _ _ _ _ _ => None
  | DefaultDialog _ _ _ _ _ _ z _ _ _ _ _ _ => Some z
  end.

(** The [onClick] of the container that fills the screen around the
    dialog (the backdrop). A sheet has no such container here. *)
Definition backdrop_onClick (e : Element) : option Handler :=
  match e with
  | PresentSheet _ _ _ _ _ _ => None
  | CustomDialog _ _ _ _ h _ _ _ _ => h
  | DefaultDialog _ _ _ _ _ h _ _ _ _ _ _ _ => Some h
  end.

#[global] Instance Q_eq_dec : EqDecision Q.
Proof. solve_decision. Defined.

(** The target of [animateController.start]. *)
Record Target : Type := {
  scale : option Q;
  opacity : option Q;
  transition_duration : option Q
}.

#[global] Instance Target_eq_dec : EqDecision Target.
Proof. solve_decision. Defined.

Definition enterStyle : Target :=
  {| scale := Some 1%Q; opacity := Some 1%Q; transition_duration := None |}.

Definition initialStyle : Target :=
  {| scale := Some 0.96%Q; opacity := Some 0%Q;
     transition_duration := None |}.

(** The two steps of [noticeModal]. *)
Definition pulse : Target :=
  {| scale := Some 1.05%Q; opacity := None;
     transition_duration := Some 0.06%Q |}.

Definition settle : Target :=
  {| scale := Some 1%Q; opacity := None; transition_duration := None |}.

(** What the environment observes. An element instance is a number: a
    mount is a new instance, with an [isUnmounted] ref and an animation
    controller of its own. *)
Inductive Event : Type :=
| Called (c : Callback) (live : list string)
    (* [item.onClose()] ran; [live] is the stack's ids at that moment *)
| StoppedPropagation
| Started (inst : nat) (t : Target)
    (* [animateController.start(t)] of the instance *)
| Unmounted (inst : nat).

(** The page: the store, the trace, the [.then] continuations of
    [noticeModal] that wait for their animation (by instance, oldest
    first) and the instances whose [isUnmounted.current] is true. *)
Record Page : Type := {
  store : Store.t;
  trace : list Event;
  waiting : list nat;
  unmounted : list nat
}.

Definition init : Page :=
  {| store := Store.init; trace := []; waiting := []; unmounted := [] |}.

Definition log (e : Event) (g : Page) : Page :=
  {| store := store g; trace := trace g ++ [e];
     waiting := waiting g; unmounted := unmounted g |}.

(** [setStack(updater)]. *)
Definition setStack (updater : list Item -> list Item) (g : Page) : Page :=
  {| store := Store.set updater (store g); trace := trace g;
     waiting := waiting g; unmounted := unmounted g |}.

(** [close()]. *)
Definition do_close (item : Item) (g : Page) : Page :=
  setStack
    (JS.filter (fun modal => JS.strict_neq (item_id modal) (item_id item))) g.

(** [onClose(open)]. *)
Definition do_onClose (item : Item) (open : bool) (g : Page) : Page :=
  if negb open then
    let g1 := do_close item g in
    match onClose (item_props item) with
    | Some c => log (Called c (ids (Store.modalStack (store g1)))) g1
    | None => g1
    end
  else g.

(** [dismiss(e)]. *)
Definition do_dismiss (item : Item) (g : Page) : Page :=
  do_close item (log StoppedPropagation g).

(** [noticeModal()]: the first step starts now, the second is the
    continuation of its promise. *)
Definition do_noticeModal (inst : nat) (g : Page) : Page :=
  let g1 := log (Started inst pulse) g in
  {| store := store g1; trace := trace g1;
     waiting := waiting g1 ++ [inst]; unmounted := unmounted g1 |}.

(** Modelled from the spec: the hook [useIsUnMounted], whose file is not
    among the sources, gives the "is this component still mounted" flag
    the continuation checks: a ref that is false while the instance is
    mounted and true once it unmounted. This is [isUnmounted.current]. *)
Definition isUnmounted (inst : nat) (g : Page) : bool :=
  bool_decide (inst ∈ unmounted g).

(** The continuation [() => { if (isUnmounted.current) return; ... }]. *)
Definition continuation (inst : nat) (g : Page) : Page :=
  if isUnmounted inst g then g
  else log (Started inst settle) g.

(** A handler called with a click event. *)
Definition click (h : Handler) (item : Item) (inst : nat) (g : Page) : Page :=
  match h with
  | Hclose => do_close item g
  | HonClose => do_onClose item true g
      (* an event object is truthy *)
  | Hdismiss => do_dismiss item g
  | HnoticeModal => do_noticeModal inst g
  | HstopPropagation => log StoppedPropagation g
  end.

(** Removes the first occurrence of [inst]. *)
Fixpoint take_first (inst : nat) (l : list nat) : option (list nat) :=
  match l with
  | [] => None
  | x :: l' =>
      if Nat.eqb x inst then Some l'
      else option_map (cons x) (take_first inst l')
  end.

(** What can happen on the page. *)
Inductive Input : Type :=
| BackdropClick (env : Env) (item : Item) (index inst : nat)
    (* a click on the container around the dialog *)
| CloseButtonClick (item : Item)
    (* the [onClick={close}] this file gives [Dialog.DialogClose]; the
       primitive then asks its root to close, which is the input
       [OpenChange item false] that follows it *)
| ContentDismiss (item : Item)
    (* the content calls the [dismiss] it was given *)
| OpenChange (item : Item) (open : bool)
    (* the dialog or sheet primitive calls [onOpenChange] *)
| Mount (inst : nat)
    (* the mount effect: [animateController.start(enterStyle)] *)
| AnimationDone (inst : nat)
    (* the promise of the oldest waiting step of [inst] resolves *)
| Unmount (inst : nat)
| Action (o : Store.Op).
    (* [present], a returned closure or a shared action, called anywhere *)

Definition step (g : Page) (i : Input) : Page :=
  match i with
  | BackdropClick env item index inst =>
      match backdrop_onClick (Modal env item index) with
      | Some h => click h item inst g
      | None => g
      end
  | CloseButtonClick item => do_close item g
  | ContentDismiss item => do_close item g
  | OpenChange item open => do_onClose item open g
  | Mount inst => log (Started inst enterStyle) g
  | AnimationDone inst =>
      match take_first inst (waiting g) with
      | Some w =>
          continuation inst
            {| store := store g; trace := trace g; waiting := w;
               unmounted := unmounted g |}
      | None => g
      end
  | Unmount inst =>
      let g1 := log (Unmounted inst) g in
      {| store := store g1; trace := trace g1; waiting := waiting g1;
         unmounted := inst :: unmounted g1 |}
  | Action o =>
      {| store := Store.apply o (store g); trace := trace g;
         waiting := waiting g; unmounted := unmounted g |}
  end.

Definition run (g : Page) (inputs : list Input) : Page :=
  fold_left step inputs g.

(** [useEffect(() => { actions.dismissAll() }, [pathname])] at a commit:
    [last] is the dependency of the previous commit ([None] at the first),
    and the effect runs when the dependency differs. The result is the
    dependency kept and the store. *)
Definition useDismissAllWhenRouterChange (last : option string)
    (pathname : string) (s : Store.t) : option string * Store.t :=
  if bool_decide (last = Some pathname) then (last, s)
  else (Some pathname, Store.dismissAll s).

(** How many times the callback [c] ran. *)
Definition calls (c : Callback) (tr : list Event) : nat :=
  length (List.filter (fun e => match e with
                                | Called (CallbackRef n) _ =>
                                    match c with CallbackRef m => Nat.eqb n m end
                                | _ => false
                                end) tr).

(** The event is the second step of a pulse of [inst]. *)
Definition is_settle (inst : nat) (e : Event) : bool :=
  match e with
  | Started j t => Nat.eqb j inst && bool_decide (t = settle)
  | _ => false
  end.

(** Whether the trace holds an [Unmounted inst] with, later, the second
    step of a pulse of [inst]. *)
Fixpoint settle_after_unmount (inst : nat) (tr : list Event) : bool :=
  match tr with
  | [] => false
  | e :: tr' =>
      match e with
      | Unmounted i => Nat.eqb i inst && existsb (is_settle inst) tr'
      | _ => false
      end || settle_after_unmount inst tr'
  end.

End View.

(* ===================================================================== *)
(** ** Specification-side definitions and sample data *)
(* ===================================================================== *)

(** The entries a run of calls of [present] without ids appends: the
    [k]-th call of the scope gets the id [scope-k]. *)
Fixpoint issued (scope : string) (count : N) (ps : list ModalProps) : list Item :=
  match ps with
  | [] => []
  | props :: ps' =>
      {| item_props := props; item_id := Store.modalId scope count |}
        :: issued scope (count + 1) ps'
  end.

(** The [currentCount] of the hook instance [scope]. *)
Definition counter (w : App.t) (scope : string) : N :=
  default 0%N (App.counters w !! scope).

(** Every id of the stack was synthesized by a hook instance at a count the
    instance has passed. *)
Definition ids_issued (w : App.t) : Prop :=
  forall x, x ∈ ids (Store.modalStack (App.store w)) ->
    exists scope k, x = Store.modalId scope k /\ (k < counter w scope)%N.

Module Sample.

Definition props (t : string) : ModalProps :=
  {| title := TitleText t; content := FCRef 0; CustomModalComponent := None;
     clickOutsideToDismiss := None; modalClassName := None;
     modalContainerClassName := None; position := None; onClose := None |}.

Definition item (t id : string) : Item :=
  {| item_props := props t; item_id := id |}.

Definition hook : Store.Hook :=
  {| Store.id := ":r0:"; Store.currentCount := 0 |}.

Definition stack (p : list Item) : Store.t :=
  {| Store.modalStack := p; Store.modalIdToPropsMap := ∅ |}.

Definition desktop : View.Env :=
  {| View.isMobile := false; View.drawerLength := 0 |}.

Definition mobile (n : nat) : View.Env :=
  {| View.isMobile := true; View.drawerLength := n |}.

(** A descriptor that closes on an outside click and has an [onClose]. *)
Definition closable : Item :=
  {| item_props :=
       {| title := TitleText "A"; content := FCRef 0;
          CustomModalComponent := None;
          clickOutsideToDismiss := Some true; modalClassName := None;
          modalContainerClassName := None; position := None;
          onClose := Some (CallbackRef 7) |};
     item_id := ":r0:-0" |}.

(** A descriptor with a container of its own that does not close on an
    outside click. *)
Definition custom (id : string) : Item :=
  {| item_props :=
       {| title := TitleText "C"; content := FCRef 0;
          CustomModalComponent := Some (FCRef 1);
          clickOutsideToDismiss := Some false; modalClassName := None;
          modalContainerClassName := None; position := None;
          onClose := None |};
     item_id := id |}.

Definition page (p : list Item) : View.Page :=
  {| View.store := stack p; View.trace := []; View.waiting := [];
     View.unmounted := [] |}.

End Sample.

(* ===================================================================== *)
(** ** Programs, commits and counts used by the further properties *)
(* ===================================================================== *)

(** The program holds no call of [present]: only returned closures and the
    shared [actions]. *)
Definition removals_only (os : list Store.Op) : bool :=
  forallb (fun o => match o with
                    | Store.Present _ _ _ => false
                    | _ => true
                    end) os.

(** The input is a call of [present]. *)
Definition adds_entry (i : View.Input) : bool :=
  match i with
  | View.Action (Store.Present _ _ _) => true
  | _ => false
  end.

Definition no_present (inputs : list View.Input) : bool :=
  forallb (fun i => negb (adds_entry i)) inputs.

(** The effect [useDismissAllWhenRouterChange] along successive commits of
    [DrawerStack], one pathname per commit. *)
Fixpoint commits (last : option string) (pathnames : list string)
    (s : Store.t) : option string * Store.t :=
  match pathnames with
  | [] => (last, s)
  | pathname :: rest =>
      let r := View.useDismissAllWhenRouterChange last pathname s in
      commits (fst r) rest (snd r)
  end.

#[global] Instance Callback_eq_dec : EqDecision Callback.
Proof. solve_decision. Defined.

(** The event is the first step of a pulse of [inst]. *)
Definition is_pulse (inst : nat) (e : View.Event) : bool :=
  match e with
  | View.Started j t => Nat.eqb j inst && bool_decide (t = View.pulse)
  | _ => false
  end.

(** The event is a call of [animateController.start]. *)
Definition is_start (e : View.Event) : bool :=
  match e with
  | View.Started _ _ => true
  | _ => false
  end.

Definition pulses (inst : nat) (tr : list View.Event) : nat :=
  length (List.filter (is_pulse inst) tr).

Definition settles (inst : nat) (tr : list View.Event) : nat :=
  length (List.filter (View.is_settle inst) tr).

(** The continuations of [inst] that wait for their animation. *)
Definition pending (inst : nat) (w : list nat) : nat :=
  length (List.filter (Nat.eqb inst) w).

(* ===================================================================== *)
(** ** Facts about the primitives *)
(* ===================================================================== *)

Section ArrayFacts.
Context {A : Type}.
Implicit Types (p : list A) (f : A -> bool).

Lemma filter_sublist f p : JS.filter f p `sublist_of` p.
Proof.
  induction p as [|x p IH]; simpl; [constructor|].
  destruct (f x); [by apply sublist_skip | by apply sublist_cons].
Qed.

Lemma filter_elem f p x : x ∈ JS.filter f p <-> x ∈ p /\ f x = true.
Proof.
  unfold JS.filter. rewrite !list_elem_of_In. apply filter_In.
Qed.

Lemma filter_idem f p : JS.filter f (JS.filter f p) = JS.filter f p.
Proof.
  induction p as [|x p IH]; simpl; [done|].
  destruct (f x) eqn:E; simpl; [rewrite E|]; by rewrite ?IH.
Qed.

Lemma filter_all f p : (forall x, x ∈ p -> f x = true) -> JS.filter f p = p.
Proof.
  induction p as [|x p IH]; intros H; simpl; [done|].
  rewrite (H x) by constructor.
  f_equal. apply IH. intros y Hy. apply H. by constructor.
Qed.

Lemma filter_app f p q : JS.filter f (p ++ q) = JS.filter f p ++ JS.filter f q.
Proof. apply List.filter_app. Qed.

(** [p.slice(0, -1)] drops the last element. *)
Lemma slice_init p x : JS.slice (p ++ [x]) 0 (-1) = p.
Proof.
  unfold JS.slice, JS.relative_index.
  change (0 <? 0)%Z with false. change (-1 <? 0)%Z with true. cbv iota.
  rewrite length_app. cbn [length].
  set (len := Z.of_nat (length p + 1)).
  replace (Z.to_nat (Z.min 0 len)) with 0 by lia.
  replace (Z.to_nat (Z.max (Z.max (len + -1) 0 - Z.min 0 len) 0))
    with (length p) by lia.
  cbn [skipn]. apply take_app_length.
Qed.

Lemma slice_nil : JS.slice (@nil A) 0 (-1) = [].
Proof. reflexivity. Qed.

Lemma slice_sublist p : JS.slice p 0 (-1) `sublist_of` p.
Proof.
  destruct (decide (p = [])) as [->|Hne]; [by rewrite slice_nil|].
  destruct (exists_last Hne) as (q & x & ->).
  rewrite slice_init. by apply sublist_inserts_r.
Qed.

End ArrayFacts.

Lemma strict_neq_true a b : JS.strict_neq a b = true <-> a <> b.
Proof.
  unfold JS.strict_neq. rewrite negb_true_iff. apply String.eqb_neq.
Qed.

Lemma strict_neq_false a b : JS.strict_neq a b = false <-> a = b.
Proof.
  unfold JS.strict_neq. rewrite negb_false_iff. apply String.eqb_eq.
Qed.

Lemma assign_lookup_eq {V} (obj : gmap string V) k v :
  k <> "__proto__" -> JS.assign obj k v !! k = Some v.
Proof.
  intros H. unfold JS.assign. apply String.eqb_neq in H. rewrite H.
  apply lookup_insert_eq.
Qed.

Lemma assign_lookup_ne {V} (obj : gmap string V) k k' v :
  k <> k' -> JS.assign obj k v !! k' = obj !! k'.
Proof.
  intros H. unfold JS.assign. destruct (String.eqb k "__proto__"); [done|].
  by apply lookup_insert_ne.
Qed.

Lemma assign_lookup_Some {V} (obj : gmap string V) k k' v x :
  JS.assign obj k v !! k' = Some x ->
  (k = k' /\ v = x /\ k <> "__proto__") \/ obj !! k' = Some x.
Proof.
  unfold JS.assign. destruct (String.eqb k "__proto__") eqn:E; [auto|].
  apply String.eqb_neq in E. intros H.
  apply lookup_insert_Some in H as [[<- <-]|[_ H]]; auto.
Qed.

Lemma assign_keeps_keys {V} (obj : gmap string V) k k' v :
  is_Some (obj !! k') -> is_Some (JS.assign obj k v !! k').
Proof.
  intros H. unfold JS.assign. destruct (String.eqb k "__proto__"); [done|].
  destruct (decide (k = k')) as [<-|Hne].
  - rewrite lookup_insert_eq. eauto.
  - by rewrite lookup_insert_ne.
Qed.

Lemma ids_app p q : ids (p ++ q) = ids p ++ ids q.
Proof. apply List.map_app. Qed.

Lemma ids_sublist p q : p `sublist_of` q -> ids p `sublist_of` ids q.
Proof.
  induction 1; simpl; [constructor | by apply sublist_skip | by apply sublist_cons].
Qed.

Lemma ids_elem x p : x ∈ ids p <-> exists m, m ∈ p /\ item_id m = x.
Proof.
  unfold ids. rewrite list_elem_of_In, in_map_iff.
  split; intros (m & H1 & H2); exists m; rewrite ?list_elem_of_In in *; auto.
Qed.

(** *** Synthesized ids *)

(** [c] occurs in [s]. *)
Fixpoint occurs (c : ascii) (s : string) : Prop :=
  match s with
  | EmptyString => False
  | String c' s' => c = c' \/ occurs c s'
  end.

Lemma occurs_app_mid c (s t : string) : occurs c (s ++ String c t)%string.
Proof. induction s; simpl; auto. Qed.

Lemma digits_no_dash d : ~ occurs "-"%char (NilEmpty.string_of_uint d).
Proof.
  induction d; simpl; [tauto | intros [H|H]; [discriminate | auto] ..].
Qed.

Lemma string_of_number_inj a b :
  JS.string_of_number a = JS.string_of_number b -> a = b.
Proof.
  unfold JS.string_of_number. intros H.
  apply Unsigned.to_uint_inj.
  pose proof (NilEmpty.usu (N.to_uint a)) as Ha.
  pose proof (NilEmpty.usu (N.to_uint b)) as Hb.
  rewrite H in Ha. congruence.
Qed.

Lemma append_dash_inj (s1 s2 d1 d2 : string) :
  ~ occurs "-"%char d1 -> ~ occurs "-"%char d2 ->
  (s1 ++ "-" ++ d1 = s2 ++ "-" ++ d2)%string -> s1 = s2 /\ d1 = d2.
Proof.
  change ("-" +:+ d1) with (String "-"%char d1).
  change ("-" +:+ d2) with (String "-"%char d2).
  intros H1 H2. revert s2.
  induction s1 as [|c s1 IH]; intros [|c' s2] E.
  - change (String "-" d1 = String "-" d2) in E. by injection E as ->.
  - change (String "-" d1 = String c' (s2 +:+ String "-" d2)) in E.
    injection E as Ec E. subst c' d1. destruct H1. apply occurs_app_mid.
  - change (String c (s1 +:+ String "-" d1) = String "-" d2) in E.
    injection E as Ec E. subst c d2. destruct H2. apply occurs_app_mid.
  - change (String c (s1 +:+ String "-" d1)
            = String c' (s2 +:+ String "-" d2)) in E.
    injection E as Ec E. subst c'. destruct (IH _ E) as [-> ->]. done.
Qed.

(** The template [`${id}-${count}`] determines both of its parts. *)
Lemma modalId_inj s1 n1 s2 n2 :
  Store.modalId s1 n1 = Store.modalId s2 n2 -> s1 = s2 /\ n1 = n2.
Proof.
  unfold Store.modalId. intros E.
  apply append_dash_inj in E as [-> E]; try apply digits_no_dash.
  split; [done | by apply string_of_number_inj].
Qed.

Lemma prefix_append (s t : string) : String.prefix s (s ++ t)%string = true.
Proof.
  induction s as [|c s IH]; simpl; [by destruct t|].
  destruct (ascii_dec c c); [apply IH | done].
Qed.

Lemma append_assoc (a b c : string) : ((a ++ b) ++ c = a ++ b ++ c)%string.
Proof.
  induction a as [|x a IH]; [done|].
  change (String x ((a +:+ b) +:+ c) = String x (a +:+ b +:+ c)).
  by rewrite IH.
Qed.

Lemma modalId_prefix (s : string) n :
  String.prefix (s ++ "-")%string (Store.modalId s n) = true.
Proof.
  unfold Store.modalId. rewrite <- append_assoc. apply prefix_append.
Qed.

(** A synthesized id holds a dash: it is never [__proto__]. *)
Lemma modalId_not_proto (s : string) n : Store.modalId s n <> "__proto__".
Proof.
  intros E.
  assert (H : occurs "-"%char (Store.modalId s n)) by apply occurs_app_mid.
  rewrite E in H. simpl in H.
  repeat (destruct H as [H|H]; [discriminate|]). done.
Qed.

(* ===================================================================== *)
(** ** The store operations *)
(* ===================================================================== *)

Lemma closure_is_dismiss modalId s : Store.closure modalId s = Store.dismiss modalId s.
Proof. reflexivity. Qed.

Lemma dismiss_stack id s :
  Store.modalStack (Store.dismiss id s)
  = JS.filter (fun item => JS.strict_neq (item_id item) id) (Store.modalStack s).
Proof. reflexivity. Qed.

Lemma dismiss_idempotent id s :
  Store.dismiss id (Store.dismiss id s) = Store.dismiss id s.
Proof.
  unfold Store.dismiss, Store.set. simpl. by rewrite filter_idem.
Qed.

Lemma dismiss_absent id s :
  id ∉ ids (Store.modalStack s) -> Store.dismiss id s = s.
Proof.
  intros H. destruct s as [p tbl]. unfold Store.dismiss, Store.set. simpl in *.
  f_equal. apply filter_all. intros x Hx. apply strict_neq_true.
  intros E. apply H. apply ids_elem. eauto.
Qed.

(** With distinct ids, filtering on an id that is present takes out one
    entry and keeps both sides of it. *)
Lemma filter_unique_id id (p : list Item) :
  NoDup (ids p) -> id ∈ ids p ->
  exists l1 x l2, p = l1 ++ x :: l2 /\ item_id x = id /\
    JS.filter (fun item => JS.strict_neq (item_id item) id) p = l1 ++ l2.
Proof.
  intros Hnd Hin. apply ids_elem in Hin as (x & Hx & Hid).
  apply list_elem_of_split in Hx as (l1 & l2 & ->).
  exists l1, x, l2. split; [done|]. split; [done|].
  rewrite ids_app in Hnd. simpl in Hnd.
  apply NoDup_app in Hnd as (_ & Hl1 & Hnd).
  apply NoDup_cons in Hnd as (Hl2 & _).
  rewrite filter_app. simpl.
  replace (JS.strict_neq (item_id x) id) with false
    by (symmetry; by apply strict_neq_false).
  f_equal; apply filter_all; intros y Hy; apply strict_neq_true; intros E.
  - apply (Hl1 id); [apply ids_elem; eauto | rewrite <- Hid; constructor].
  - apply Hl2. rewrite Hid. apply ids_elem. eauto.
Qed.

(** The closure of a call without an id undoes the call when the
    synthesized id is not in the stack yet. *)
Lemma closure_undoes_synthesized h props s :
  Store.modalId (Store.id h) (Store.currentCount h) ∉ ids (Store.modalStack s) ->
  let r := Store.present h props None s in
  Store.modalStack (Store.closure (Store.captured r) (Store.store_after r))
  = Store.modalStack s.
Proof.
  intros H. simpl. unfold JS.concat. rewrite filter_app. simpl.
  replace (JS.strict_neq _ _) with false
    by (symmetry; by apply strict_neq_false).
  rewrite app_nil_r.
  apply filter_all. intros x Hx. apply strict_neq_true.
  intros E. apply H. apply ids_elem. eauto.
Qed.

Lemma present_all_stack h ps s :
  Store.modalStack (snd (Store.present_all h ps s))
  = Store.modalStack s ++ issued (Store.id h) (Store.currentCount h) ps /\
  fst (Store.present_all h ps s)
  = {| Store.id := Store.id h;
       Store.currentCount := Store.currentCount h + N.of_nat (length ps) |}.
Proof.
  revert h s. induction ps as [|props ps IH]; intros h s.
  - simpl. rewrite app_nil_r, N.add_0_r. by destruct h.
  - cbn [Store.present_all issued length].
    destruct (IH (Store.hook_after (Store.present h props None s))
                 (Store.store_after (Store.present h props None s))) as [E1 E2].
    rewrite E1, E2. simpl. unfold JS.concat. rewrite <- app_assoc. simpl.
    split; [done|]. f_equal. lia.
Qed.

Lemma issued_ids scope c ps x :
  x ∈ ids (issued scope c ps) ->
  exists k, x = Store.modalId scope k /\ (c <= k)%N.
Proof.
  revert c. induction ps as [|props ps IH]; intros c; simpl.
  - intros H. inversion H.
  - intros H. apply elem_of_cons in H as [->|H].
    + exists c. split; [done | lia].
    + destruct (IH _ H) as (k & -> & Hk). exists k. split; [done | lia].
Qed.

Lemma issued_NoDup scope c ps : NoDup (ids (issued scope c ps)).
Proof.
  revert c. induction ps as [|props ps IH]; intros c; simpl; [constructor|].
  constructor; [|apply IH].
  intros H. apply issued_ids in H as (k & E & Hk).
  apply modalId_inj in E as [_ ->]. lia.
Qed.

Lemma issued_props scope c ps : List.map item_props (issued scope c ps) = ps.
Proof.
  revert c. induction ps as [|props ps IH]; intros c; simpl; [done|].
  by rewrite IH.
Qed.

(* ===================================================================== *)
(** ** Programs over the store: the ids of the live stack *)
(* ===================================================================== *)

Lemma apply_removal_sublist (o : Store.Op) s :
  match o with Store.Present _ _ _ => False | _ => True end ->
  Store.modalStack (Store.apply o s) `sublist_of` Store.modalStack s.
Proof.
  destruct o; simpl; intros H; try done.
  - apply filter_sublist.
  - apply filter_sublist.
  - apply slice_sublist.
  - apply sublist_nil_l.
Qed.

Lemma ids_issued_shrink w w' :
  Store.modalStack (App.store w') `sublist_of` Store.modalStack (App.store w) ->
  App.counters w' = App.counters w ->
  NoDup (ids (Store.modalStack (App.store w))) /\ ids_issued w ->
  NoDup (ids (Store.modalStack (App.store w'))) /\ ids_issued w'.
Proof.
  intros Hsub Hc [Hnd Hiss]. apply ids_sublist in Hsub. split.
  - by eapply sublist_NoDup.
  - intros x Hx. unfold counter. rewrite Hc.
    apply Hiss. by eapply elem_of_sublist.
Qed.

Lemma step_keeps_ids_distinct w o :
  App.synthesized_only [o] = true ->
  NoDup (ids (Store.modalStack (App.store w))) /\ ids_issued w ->
  NoDup (ids (Store.modalStack (App.store (App.step w o)))) /\
  ids_issued (App.step w o).
Proof.
  intros Hs Inv. destruct o as [scope props pid|k|id| |].
  - destruct pid as [pid|]; [discriminate|].
    destruct Inv as [Hnd Hiss].
    assert (Hfresh : Store.modalId scope (counter w scope)
                       ∉ ids (Store.modalStack (App.store w))).
    { intros Hin. destruct (Hiss _ Hin) as (sc & k & E & Hk).
      apply modalId_inj in E as [<- <-]. lia. }
    split.
    + simpl. unfold JS.concat. rewrite ids_app. simpl.
      apply NoDup_app. split; [done|]. split.
      * intros x Hx Hx'. apply list_elem_of_singleton in Hx'. by subst.
      * apply NoDup_singleton.
    + intros x. simpl. unfold JS.concat. rewrite ids_app. simpl.
      intros Hx. apply elem_of_app in Hx as [Hx|Hx].
      * destruct (Hiss _ Hx) as (sc & k & -> & Hk). exists sc, k.
        split; [done|]. unfold counter in *. simpl.
        destruct (decide (scope = sc)) as [->|Hne].
        -- rewrite lookup_insert_eq. simpl. lia.
        -- by rewrite lookup_insert_ne.
      * apply list_elem_of_singleton in Hx as ->.
        exists scope, (counter w scope). split; [done|].
        unfold counter. simpl. rewrite lookup_insert_eq. simpl. lia.
  - simpl. destruct (App.closures w !! k) as [m|] eqn:E; [|done].
    apply (ids_issued_shrink w); [|done|done].
    apply (apply_removal_sublist (Store.Closure m)). done.
  - apply (ids_issued_shrink w); [|done|done].
    apply (apply_removal_sublist (Store.Dismiss id)). done.
  - apply (ids_issued_shrink w); [|done|done].
    apply (apply_removal_sublist Store.DismissTop). done.
  - apply (ids_issued_shrink w); [|done|done].
    apply (apply_removal_sublist Store.DismissAll). done.
Qed.

Lemma run_keeps_ids_distinct os w :
  App.synthesized_only os = true ->
  NoDup (ids (Store.modalStack (App.store w))) /\ ids_issued w ->
  NoDup (ids (Store.modalStack (App.store (App.run w os)))) /\
  ids_issued (App.run w os).
Proof.
  revert w. induction os as [|o os IH]; intros w Hs Inv; [done|].
  simpl in Hs. apply andb_true_iff in Hs as [Ho Hos].
  simpl. apply IH; [done|].
  apply step_keeps_ids_distinct; [|done].
  simpl. by rewrite Ho.
Qed.

(** C3, as the code has it: in every stack state reachable from the initial
    one by calls of [present] that pass no id of their own, calls of the
    returned closures, [dismiss], [dismissTop] and [dismissAll], the ids of
    the live stack are pairwise distinct. *)
Theorem synthesized_ids_pairwise_distinct (os : list App.Op) :
  App.synthesized_only os = true ->
  NoDup (ids (Store.modalStack (App.store (App.run App.init os)))).
Proof.
  intros Hs. apply (run_keeps_ids_distinct os App.init Hs).
  split; [constructor|]. intros x Hx. inversion Hx.
Qed.

(** A program over two hook instances, with a closure call in between. *)
Lemma synthesized_ids_pairwise_distinct_witness :
  NoDup (ids (Store.modalStack (App.store (App.run App.init
    [App.Present ":r0:" (Sample.props "A") None;
     App.Present ":r1:" (Sample.props "B") None;
     App.Present ":r0:" (Sample.props "C") None;
     App.CallClosure 0;
     App.Present ":r0:" (Sample.props "D") None;
     App.DismissTop])))).
Proof.
  apply synthesized_ids_pairwise_distinct. reflexivity.
Defined.

(** C3, as the spec states it, fails: two calls of [present] with the same
    id of their own leave two entries with that id in the stack. *)
Lemma explicit_ids_collide :
  ~ NoDup (ids (Store.modalStack (App.store (App.run App.init
      [App.Present ":r0:" (Sample.props "A") (Some "settings");
       App.Present ":r0:" (Sample.props "B") (Some "settings")])))).
Proof.
  vm_compute. intros H. apply NoDup_cons in H as [H _].
  apply H. constructor.
Qed.

(* ===================================================================== *)
(** ** [present] and its closure *)
(* ===================================================================== *)

(** C1 (the code departs from the claim): a descriptor presented with an id
    of its own is still in the stack after the closure [present] returned
    for it is called; the closure filters on the synthesized id
    [":r0:-0"], not on the id the entry carries. *)
Theorem closure_keeps_explicit_id :
  let r := Store.present Sample.hook (Sample.props "A") (Some "settings")
             Store.init in
  ids (Store.modalStack (Store.store_after r)) = ["settings"] /\
  Store.captured r = ":r0:-0" /\
  ids (Store.modalStack
         (Store.closure (Store.captured r) (Store.store_after r)))
  = ["settings"].
Proof. vm_compute. auto. Qed.

(** The closure filters on an id, so a second call changes nothing. *)
Lemma closure_twice modalId s :
  Store.closure modalId (Store.closure modalId s) = Store.closure modalId s.
Proof. apply dismiss_idempotent. Qed.

(** C5: calls of [present] from one hook instance, none with an id of its
    own, append their descriptors in call order; the ids they get are
    pairwise distinct and start with the scope id and a dash; the counter
    of the instance advances by the number of calls. *)
Theorem present_all_same_scope (h : Store.Hook) (ps : list ModalProps)
    (s : Store.t) :
  exists new,
    Store.modalStack (snd (Store.present_all h ps s))
      = Store.modalStack s ++ new /\
    List.map item_props new = ps /\
    NoDup (ids new) /\
    Forall (fun x => String.prefix (Store.id h ++ "-")%string x = true)
           (ids new) /\
    Store.currentCount (fst (Store.present_all h ps s))
      = (Store.currentCount h + N.of_nat (length ps))%N.
Proof.
  destruct (present_all_stack h ps s) as [E1 E2].
  exists (issued (Store.id h) (Store.currentCount h) ps).
  split; [done|]. split; [apply issued_props|].
  split; [apply issued_NoDup|]. split; [|by rewrite E2].
  apply Forall_forall. intros x Hx.
  apply issued_ids in Hx as (k & -> & _). apply modalId_prefix.
Qed.

(** The scenario of the spec: A then B from the scope [":r0:"]. *)
Example present_A_then_B :
  let s := snd (Store.present_all Sample.hook
                  [Sample.props "A"; Sample.props "B"] Store.init) in
  List.map (fun m => title (item_props m)) (Store.modalStack s)
    = [TitleText "A"; TitleText "B"] /\
  ids (Store.modalStack s) = [":r0:-0"; ":r0:-1"].
Proof. vm_compute. auto. Qed.

(* ===================================================================== *)
(** ** [dismiss], [dismissTop], [dismissAll] *)
(* ===================================================================== *)

(** Whatever part of the stack, in order, holds only entries the callback
    accepts is a part of what [filter] keeps. *)
Lemma filter_greatest {A} (f : A -> bool) (q p : list A) :
  q `sublist_of` p -> (forall x, x ∈ q -> f x = true) ->
  q `sublist_of` JS.filter f p.
Proof.
  induction 1 as [|x q p _ IH|x q p _ IH]; intros Hq; simpl.
  - constructor.
  - rewrite (Hq x) by constructor. apply sublist_skip, IH.
    intros y Hy. apply Hq. by constructor.
  - destruct (f x); [apply sublist_cons|]; by apply IH.
Qed.

(** [filter] on an id takes out as many entries as carry the id. *)
Lemma filter_id_length (id : string) (p : list Item) :
  length (JS.filter (fun item => JS.strict_neq (item_id item) id) p)
  + count_occ String.string_dec (ids p) id = length p.
Proof.
  induction p as [|x p IH]; simpl; [done|].
  destruct (String.string_dec (item_id x) id) as [E|E].
  - replace (JS.strict_neq (item_id x) id) with false
      by (symmetry; by apply strict_neq_false).
    lia.
  - replace (JS.strict_neq (item_id x) id) with true
      by (symmetry; by apply strict_neq_true).
    simpl. lia.
Qed.

(** C4, as the code has it: [dismiss(id)] keeps, in their order, exactly the
    entries whose id differs from [id], and leaves the side table alone:
    what it returns is a part of the stack, in order, with no entry of
    that id, every such part of the stack is a part of it, and as many
    entries are gone as carried the id. It changes nothing when no entry
    has the id; when the ids of the stack are pairwise distinct and one
    entry has the id, it takes out that one entry and keeps what stands
    before and after it; applying it twice is applying it once. *)
Theorem dismiss_removes_by_id (s : Store.t) (id : string) :
  let p := Store.modalStack s in
  let p' := Store.modalStack (Store.dismiss id s) in
  p' `sublist_of` p /\
  (forall x, x ∈ p' <-> x ∈ p /\ item_id x <> id) /\
  (forall q, q `sublist_of` p -> (forall x, x ∈ q -> item_id x <> id) ->
     q `sublist_of` p') /\
  length p' + count_occ String.string_dec (ids p) id = length p /\
  Store.modalIdToPropsMap (Store.dismiss id s) = Store.modalIdToPropsMap s /\
  (id ∉ ids p -> Store.dismiss id s = s) /\
  (NoDup (ids p) -> id ∈ ids p ->
     exists l1 x l2, p = l1 ++ x :: l2 /\ item_id x = id /\ p' = l1 ++ l2 /\
                     length p' = length p - 1) /\
  Store.dismiss id (Store.dismiss id s) = Store.dismiss id s.
Proof.
  cbv zeta. rewrite dismiss_stack.
  split; [apply filter_sublist|].
  split. { intros x. rewrite filter_elem. by rewrite strict_neq_true. }
  split. { intros q Hsub Hq. apply filter_greatest; [done|].
           intros x Hx. apply strict_neq_true. by apply Hq. }
  split; [apply filter_id_length|].
  split; [done|].
  split; [apply dismiss_absent|].
  split; [|apply dismiss_idempotent].
  intros Hnd Hin.
  destruct (filter_unique_id id _ Hnd Hin) as (l1 & x & l2 & E1 & E2 & E3).
  exists l1, x, l2. rewrite E3. repeat split; try done.
  rewrite E1, !length_app. simpl. lia.
Qed.

(** Being a part of the stack without the id that holds every such part
    fixes the list: it is the stack [dismiss] gives. *)
Lemma dismiss_result_unique (s : Store.t) (id : string) (q : list Item) :
  q `sublist_of` Store.modalStack s ->
  (forall x, x ∈ q -> item_id x <> id) ->
  (forall q', q' `sublist_of` Store.modalStack s ->
     (forall x, x ∈ q' -> item_id x <> id) -> q' `sublist_of` q) ->
  q = Store.modalStack (Store.dismiss id s).
Proof.
  intros Hsub Hq Hmax. rewrite dismiss_stack. apply (anti_symm sublist).
  - apply filter_greatest; [done|]. intros x Hx.
    apply strict_neq_true. by apply Hq.
  - apply Hmax; [apply filter_sublist|]. intros x Hx.
    apply filter_elem in Hx as [_ Hx]. by apply strict_neq_true.
Qed.

(** The scenario of the spec: [A, B, C] and [dismiss(B.id)] give [A, C]. *)
Lemma dismiss_removes_by_id_witness :
  let s := Sample.stack [Sample.item "A" "a"; Sample.item "B" "b";
                         Sample.item "C" "c"] in
  Store.modalStack (Store.dismiss "b" s)
    = [Sample.item "A" "a"; Sample.item "C" "c"] /\
  exists l1 x l2, Store.modalStack s = l1 ++ x :: l2 /\ item_id x = "b" /\
    Store.modalStack (Store.dismiss "b" s) = l1 ++ l2 /\
    length (Store.modalStack (Store.dismiss "b" s))
      = length (Store.modalStack s) - 1.
Proof.
  split; [reflexivity|].
  apply (dismiss_removes_by_id
           (Sample.stack [Sample.item "A" "a"; Sample.item "B" "b";
                          Sample.item "C" "c"]) "b").
  - apply (bool_decide_unpack _). vm_compute. reflexivity.
  - apply (bool_decide_unpack _). vm_compute. reflexivity.
Defined.

(** C4, as the spec states it, fails on a stack that holds an id twice:
    [dismiss] removes both entries, not exactly one. *)
Lemma dismiss_removes_every_duplicate :
  let s := Sample.stack [Sample.item "A" "settings";
                         Sample.item "B" "settings"] in
  "settings" ∈ ids (Store.modalStack s) /\
  length (Store.modalStack (Store.dismiss "settings" s))
    <> length (Store.modalStack s) - 1.
Proof. vm_compute. split; [constructor | discriminate]. Qed.

(** C6: on a stack of size [n >= 1], [dismissTop()] gives the stack without
    its last element, of size [n - 1]; on the empty stack it changes
    nothing; the side table is left alone. *)
Theorem dismissTop_removes_last (s : Store.t) (n : nat) :
  length (Store.modalStack s) = n ->
  (1 <= n ->
     exists x, Store.modalStack s = Store.modalStack (Store.dismissTop s) ++ [x] /\
               length (Store.modalStack (Store.dismissTop s)) = n - 1) /\
  (n = 0 -> Store.dismissTop s = s) /\
  Store.modalIdToPropsMap (Store.dismissTop s) = Store.modalIdToPropsMap s.
Proof.
  intros Hn. destruct s as [p tbl]. simpl in *.
  split; [|split; [|done]].
  - intros H1. destruct (decide (p = [])) as [->|Hne]; [simpl in Hn; lia|].
    destruct (exists_last Hne) as (q & x & ->).
    exists x. rewrite slice_init. split; [done|].
    rewrite length_app in Hn. simpl in Hn. lia.
  - intros ->. by destruct p.
Qed.

(** [dismissTop] on a stack of two entries. *)
Lemma dismissTop_removes_last_witness :
  let s := Sample.stack [Sample.item "A" "a"; Sample.item "B" "b"] in
  (1 <= 2 ->
     exists x, Store.modalStack s = Store.modalStack (Store.dismissTop s) ++ [x] /\
               length (Store.modalStack (Store.dismissTop s)) = 2 - 1) /\
  (2 = 0 -> Store.dismissTop s = s) /\
  Store.modalIdToPropsMap (Store.dismissTop s) = Store.modalIdToPropsMap s.
Proof.
  apply (dismissTop_removes_last
           (Sample.stack [Sample.item "A" "a"; Sample.item "B" "b"]) 2).
  reflexivity.
Defined.

Lemma dismissAll_empty s : Store.modalStack (Store.dismissAll s) = [].
Proof. reflexivity. Qed.

(** C7: [dismissAll()] gives the empty stack whatever the stack was, and
    the effect on [pathname] calls it at every commit whose pathname
    differs from the one of the commit before (and at the first commit), so
    the stack is empty after a change of route. *)
Theorem route_change_empties_stack (s : Store.t) :
  Store.modalStack (Store.dismissAll s) = [] /\
  forall (last : option string) (pathname : string),
    last <> Some pathname ->
    View.useDismissAllWhenRouterChange last pathname s
      = (Some pathname, Store.dismissAll s) /\
    Store.modalStack (snd (View.useDismissAllWhenRouterChange last pathname s))
      = [].
Proof.
  split; [done|]. intros last pathname H.
  unfold View.useDismissAllWhenRouterChange.
  rewrite bool_decide_eq_false_2 by done. done.
Qed.

(** The scenario of the spec: [A, B] and a change of route give []. *)
Lemma route_change_empties_stack_witness :
  let s := Sample.stack [Sample.item "A" "a"; Sample.item "B" "b"] in
  View.useDismissAllWhenRouterChange (Some "/posts") "/notes" s
    = (Some "/notes", Store.dismissAll s) /\
  Store.modalStack
    (snd (View.useDismissAllWhenRouterChange (Some "/posts") "/notes" s)) = [].
Proof.
  apply (route_change_empties_stack
           (Sample.stack [Sample.item "A" "a"; Sample.item "B" "b"])).
  discriminate.
Defined.

(* ===================================================================== *)
(** ** The operations over the heap *)
(* ===================================================================== *)

Section HeapFacts.
Import Mem.
Implicit Types (h : Heap) (l : list loc) (p : list Item).

Lemma deref_denotes h l p : deref h l = Some p <-> denotes h l p.
Proof. apply mapM_Some. Qed.

Lemma denotes_exists h l :
  (forall r, r ∈ l -> is_Some (records h !! r)) -> exists p, denotes h l p.
Proof.
  induction l as [|r l IH]; intros H.
  - exists []. constructor.
  - destruct (H r) as [m Hm]; [constructor|].
    destruct IH as [p Hp]. { intros r' Hr'. apply H. by constructor. }
    exists (m :: p). by constructor.
Qed.

Lemma denotes_valid h l p r : denotes h l p -> r ∈ l -> is_Some (records h !! r).
Proof.
  induction 1 as [|r' m l p Hr _ IH]; intros Hin; [inversion Hin|].
  apply elem_of_cons in Hin as [->|Hin]; eauto.
Qed.

Lemma denotes_weaken h h' l p :
  records h ⊆ records h' -> denotes h l p -> denotes h' l p.
Proof.
  intros Hsub Hd. eapply Forall2_impl; [exact Hd|].
  intros r m Hr. exact (lookup_weaken _ _ _ _ Hr Hsub).
Qed.

Lemma denotes_slice h l p start end_ :
  denotes h l p -> denotes h (JS.slice l start end_) (JS.slice p start end_).
Proof.
  intros H. unfold JS.slice. rewrite (Forall2_length _ _ _ H).
  by apply Forall2_take, Forall2_drop.
Qed.

(** The callback of [filter] reads records only: the heap stays as it is,
    and the references kept are those of the records kept. *)
Lemma filterM_id_differs h id l p :
  denotes h l p ->
  exists l',
    filterM (id_differs id) l h = inr (l', h) /\
    denotes h l' (JS.filter (fun item => JS.strict_neq (item_id item) id) p) /\
    (forall r, r ∈ l' -> r ∈ l).
Proof.
  induction 1 as [|r m l p Hr _ (l' & E & Hd & Hin)].
  - exists []. repeat split; [constructor | done].
  - cbn [filterM]. unfold bind at 1. unfold id_differs at 1.
    unfold bind at 1. unfold read_record. rewrite Hr. unfold ret at 1.
    unfold bind at 1. rewrite E. unfold ret. simpl.
    destruct (JS.strict_neq (item_id m) id).
    + exists (r :: l'). split; [done|]. split; [by constructor|].
      intros r' Hr'. apply elem_of_cons in Hr' as [->|Hr'];
        [constructor | constructor; auto].
    + exists l'. split; [done|]. split; [done|].
      intros r' Hr'. constructor. auto.
Qed.

Lemma wf_stack h :
  wf h -> exists l p, arrays h !! atom h = Some l /\ denotes h l p.
Proof.
  intros ([l Hl] & Hrec & _). exists l.
  destruct (denotes_exists h l) as [p Hp]; [|by eauto].
  intros r Hr. exact (Hrec _ _ _ Hl Hr).
Qed.

Lemma fresh_array h : arrays h !! fresh (dom (arrays h)) = None.
Proof. apply not_elem_of_dom, is_fresh. Qed.

Lemma fresh_record h : records h !! fresh (dom (records h)) = None.
Proof. apply not_elem_of_dom, is_fresh. Qed.

(** What holds after the atom is set to a newly allocated array whose
    references are valid. *)
Lemma publish_array h l' p' :
  wf h -> denotes h l' p' ->
  let a := fresh (dom (arrays h)) in
  let h' := {| arrays := <[a := l']> (arrays h); records := records h;
               atom := a; table := table h |} in
  wf h' /\ stack_of h' = Some p' /\ table_of h' = table_of h /\
  arrays h ⊆ arrays h' /\ records h ⊆ records h' /\
  arrays h !! atom h' = None.
Proof.
  intros (Hatom & Hrec & Htbl) Hd a h'. subst h'.
  split.
  { unfold wf. simpl. split; [|split; [|done]].
    - rewrite lookup_insert_eq. eauto.
    - intros a' l r Ha Hr.
      destruct (decide (a = a')) as [<-|Hne].
      + rewrite lookup_insert_eq in Ha. injection Ha as <-.
        by eapply denotes_valid.
      + rewrite lookup_insert_ne in Ha by done. exact (Hrec _ _ _ Ha Hr). }
  split.
  { unfold stack_of. simpl. rewrite lookup_insert_eq. simpl.
    by apply deref_denotes. }
  split; [done|].
  split; [apply insert_subseteq, fresh_array|].
  split; [done|]. apply fresh_array.
Qed.

End HeapFacts.

Section HeapOperations.
Import Mem.
Implicit Types (h : Heap) (l : list loc) (p : list Item).

Lemma store_of_stack h l p :
  arrays h !! atom h = Some l -> denotes h l p ->
  store_of h = Some {| Store.modalStack := p;
                       Store.modalIdToPropsMap := table_of h |}.
Proof.
  intros Hl Hd. unfold store_of, stack_of. rewrite Hl. simpl.
  apply deref_denotes in Hd. by rewrite Hd.
Qed.

Lemma store_of_published h' p' t :
  stack_of h' = Some p' -> table_of h' = t ->
  store_of h' = Some {| Store.modalStack := p';
                        Store.modalIdToPropsMap := t |}.
Proof. intros Hs Ht. unfold store_of. by rewrite Hs, Ht. Qed.

(** [p.filter((item) => item.id !== id)] published in the atom. *)
Lemma exec_filter id h l p :
  wf h -> arrays h !! atom h = Some l -> denotes h l p ->
  exists h',
    set (fun a => array_filter a (id_differs id)) h = inr (tt, h') /\
    wf h' /\
    store_of h'
      = Some {| Store.modalStack :=
                  JS.filter (fun item => JS.strict_neq (item_id item) id) p;
                Store.modalIdToPropsMap := table_of h |} /\
    arrays h ⊆ arrays h' /\ records h ⊆ records h' /\
    arrays h !! atom h' = None.
Proof.
  intros Hwf Hl Hd.
  destruct (filterM_id_differs h id l p Hd) as (l' & E & Hd' & _).
  destruct (publish_array h l' _ Hwf Hd') as (W & S & T & A & R & F).
  eexists. split.
  { unfold set, array_filter, bind, atom_get, read_array.
    rewrite Hl, E. unfold alloc_array, atom_set. reflexivity. }
  split; [exact W|]. split; [exact (store_of_published _ _ _ S T)|].
  split; [exact A|]. split; [exact R | exact F].
Qed.

Lemma table_of_insert h k r m :
  (forall k' r', table h !! k' = Some r' -> is_Some (records h !! r')) ->
  records h !! r = None ->
  omap (fun r' => <[r := m]> (records h) !! r') (<[k := r]> (table h))
  = <[k := m]> (table_of h).
Proof.
  intros Hvalid Hfresh. apply map_eq. intros i.
  unfold table_of. rewrite lookup_omap.
  destruct (decide (k = i)) as [<-|Hne].
  - rewrite !lookup_insert_eq. simpl. by rewrite lookup_insert_eq.
  - rewrite !lookup_insert_ne by done. rewrite lookup_omap.
    destruct (table h !! i) as [r'|] eqn:Hi; [|done]. simpl.
    destruct (Hvalid _ _ Hi) as [m' Hm'].
    rewrite lookup_insert_ne; [done|].
    intros ->. assert (Some m' = None) by (rewrite <- Hm'; exact Hfresh).
    discriminate.
Qed.

Lemma table_of_assign h k r m :
  (forall k' r', table h !! k' = Some r' -> is_Some (records h !! r')) ->
  records h !! r = None ->
  omap (fun r' => <[r := m]> (records h) !! r') (JS.assign (table h) k r)
  = JS.assign (table_of h) k m.
Proof.
  intros Hvalid Hfresh. unfold JS.assign.
  destruct (String.eqb k "__proto__"); [|by apply table_of_insert].
  apply map_eq. intros i. unfold table_of. rewrite !lookup_omap.
  destruct (table h !! i) as [r'|] eqn:Hi; [|done]. simpl.
  destruct (Hvalid _ _ Hi) as [m' Hm'].
  rewrite lookup_insert_ne; [done|].
  intros ->. assert (Some m' = None) by (rewrite <- Hm'; exact Hfresh).
  discriminate.
Qed.

(** One operation on a heap whose references are valid: it returns, the
heap it leaves is valid again and denotes the operation applied to the
store the old heap denoted; the arrays and records of the old heap are
all in the new one, unchanged; the array the atom holds afterwards is
one the old heap did not have. *)
Lemma exec_copy_on_write (o : Store.Op) (h : Heap) :
  wf h ->
  exists h' s,
    exec o h = inr (tt, h') /\ wf h' /\
    store_of h = Some s /\ store_of h' = Some (Store.apply o s) /\
    arrays h ⊆ arrays h' /\ records h ⊆ records h' /\
    arrays h !! atom h' = None.
Proof.
  intros Hwf. destruct (wf_stack h Hwf) as (l & p & Hl & Hd).
  pose proof (store_of_stack h l p Hl Hd) as Hs.
  destruct o as [hk props pid|modalId|id| |].
  - (* present *)
    set (m := {| item_props := props;
                 item_id := default (Store.modalId (Store.id hk)
                                       (Store.currentCount hk)) pid |}).
    set (r := fresh (dom (records h))).
    set (h2 := {| arrays := arrays h; records := <[r := m]> (records h);
                  atom := atom h; table := JS.assign (table h) (item_id m) r |}).
    assert (Hr : records h !! r = None) by apply fresh_record.
    assert (Hsub : records h ⊆ records h2)
      by (by apply insert_subseteq).
    destruct Hwf as (Hatom & Hrec & Htbl).
    assert (Hwf2 : wf h2).
    { split; [done|]. split.
      - intros a l0 r0 Ha Hr0. destruct (Hrec _ _ _ Ha Hr0) as [m0 Hm0].
        exists m0. exact (lookup_weaken _ _ _ _ Hm0 Hsub).
      - simpl. intros k r0 Hk.
        apply assign_lookup_Some in Hk as [(_ & <- & _)|Hk].
        + rewrite lookup_insert_eq. eauto.
        + destruct (Htbl _ _ Hk) as [m0 Hm0].
          exists m0. exact (lookup_weaken _ _ _ _ Hm0 Hsub). }
    assert (Hd2 : denotes h2 (JS.concat l r) (JS.concat p m)).
    { apply Forall2_app; [by eapply denotes_weaken|].
      constructor; [|constructor]. simpl. apply lookup_insert_eq. }
    destruct (publish_array h2 _ _ Hwf2 Hd2) as (W & S & T & A & R & F).
    exists {| arrays := <[fresh (dom (arrays h2)) := JS.concat l r]> (arrays h2);
              records := records h2; atom := fresh (dom (arrays h2));
              table := table h2 |}.
    eexists. split.
    { unfold exec, present, set, bind, atom_get, alloc_record, table_put,
        array_concat, bind, read_array. simpl. rewrite Hl.
      unfold alloc_array, atom_set, ret. simpl. reflexivity. }
    split; [exact W|]. split; [exact Hs|]. split.
    { refine (store_of_published _ _ _ S _).
      etrans; [exact T|]. apply table_of_assign; done. }
    split; [exact A|]. split; [exact Hsub | exact F].
  - destruct (exec_filter modalId h l p Hwf Hl Hd)
      as (h' & E & W & S & A & R & F).
    exists h'. eexists. split; [exact E|]. split; [exact W|].
    split; [exact Hs|]. split; [exact S|].
    split; [exact A|]. split; [exact R | exact F].
  - destruct (exec_filter id h l p Hwf Hl Hd)
      as (h' & E & W & S & A & R & F).
    exists h'. eexists. split; [exact E|]. split; [exact W|].
    split; [exact Hs|]. split; [exact S|].
    split; [exact A|]. split; [exact R | exact F].
  - destruct (publish_array h _ _ Hwf (denotes_slice h l p 0 (-1) Hd))
      as (W & S & T & A & R & F).
    exists {| arrays := <[fresh (dom (arrays h)) := JS.slice l 0 (-1)]> (arrays h);
              records := records h; atom := fresh (dom (arrays h));
              table := table h |}.
    eexists. split.
    { unfold exec, dismissTop, set, array_slice, bind, atom_get, read_array.
      rewrite Hl. unfold alloc_array, atom_set. reflexivity. }
    split; [exact W|]. split; [exact Hs|].
    split; [exact (store_of_published _ _ _ S T)|].
    split; [exact A|]. split; [exact R | exact F].
  - destruct (publish_array h [] [] Hwf (List.Forall2_nil _))
      as (W & S & T & A & R & F).
    exists {| arrays := <[fresh (dom (arrays h)) := []]> (arrays h);
              records := records h; atom := fresh (dom (arrays h));
              table := table h |}.
    eexists. split.
    { unfold exec, dismissAll, bind, alloc_array, atom_set. reflexivity. }
    split; [exact W|]. split; [exact Hs|].
    split; [exact (store_of_published _ _ _ S T)|].
    split; [exact A|]. split; [exact R | exact F].
Qed.

Lemma exec_all_reaches (os : list Store.Op) (h : Heap) (s : Store.t) :
wf h -> store_of h = Some s ->
exists h',
  exec_all os h = inr (tt, h') /\ wf h' /\
  store_of h' = Some (Store.apply_all os s).
Proof.
revert h s. induction os as [|o os IH]; intros h s W S.
- exists h. done.
- destruct (exec_copy_on_write o h W) as (h1 & s1 & E & W1 & S0 & S1 & _).
  rewrite S in S0. injection S0 as <-.
  destruct (IH h1 _ W1 S1) as (h' & E' & W' & S').
  exists h'. cbn [exec_all]. unfold bind at 1. rewrite E.
  split; [exact E'|]. split; [exact W' | exact S'].
Qed.

Lemma init_wf : wf init.
Proof.
split; [by eexists|]. split.
- intros a l r Ha Hr. simpl in Ha.
  apply lookup_singleton_Some in Ha as [_ <-]. inversion Hr.
- intros k r Hk. simpl in Hk. rewrite lookup_empty in Hk. discriminate.
Qed.

Lemma init_store : store_of init = Some Store.init.
Proof. reflexivity. Qed.

(** C8: no operation that writes the store throws, on any heap a program
of such operations reaches from the initial one: the program returns a
heap [h] that denotes the store the program computes on values, and
any further operation returns a heap [h'] that denotes the operation
applied to that store. Every array and every record of [h] is in [h']
unchanged (nothing is written in place), and the array the atom holds
in [h'] is one [h] did not have. *)
Theorem exec_total_copy_on_write (os : list Store.Op) (o : Store.Op) :
exists h h',
  exec_all os init = inr (tt, h) /\
  store_of h = Some (Store.apply_all os Store.init) /\
  exec o h = inr (tt, h') /\
  store_of h' = Some (Store.apply o (Store.apply_all os Store.init)) /\
  arrays h ⊆ arrays h' /\ records h ⊆ records h' /\
  arrays h !! atom h' = None.
Proof.
destruct (exec_all_reaches os init _ init_wf init_store) as (h & E & W & S).
destruct (exec_copy_on_write o h W) as (h' & s & E' & _ & S0 & S1 & A & R & F).
rewrite S in S0. injection S0 as <-.
exists h, h'. split; [exact E|]. split; [exact S|]. split; [exact E'|].
split; [exact S1|]. split; [exact A|]. split; [exact R | exact F].
Qed.

End HeapOperations.

(* ===================================================================== *)
(** ** The renderer *)
(* ===================================================================== *)

Lemma Modal_key env item index :
  View.key_of (View.Modal env item index) = item_id item.
Proof.
  unfold View.Modal. destruct (View.isMobile env); [done|].
  by destruct (CustomModalComponent (item_props item)).
Qed.

Lemma Modal_zIndex env item index :
  View.zIndex_of (View.Modal env item index)
  = if View.isMobile env then Some (1000 + Z.of_nat (View.drawerLength env))%Z
    else match CustomModalComponent (item_props item) with
         | Some _ => None
         | None => Some (99 + Z.of_nat index)%Z
         end.
Proof.
  unfold View.Modal. destruct (View.isMobile env); [done|].
  by destruct (CustomModalComponent (item_props item)).
Qed.

Lemma imap_keys (g : nat -> Item -> View.Element) (stack : list Item) :
  (forall i item, View.key_of (g i item) = item_id item) ->
  List.map View.key_of (imap g stack) = ids stack.
Proof.
  revert g. induction stack as [|x stack IH]; intros g Hg; [done|].
  simpl. rewrite Hg. f_equal. apply IH. intros. apply Hg.
Qed.

(** C10, as the code has it: before the client has rendered once the
    renderer returns nothing; afterwards it returns one element per
    descriptor, in list order and keyed by the id. On mobile the sheet of
    an element has z-index 1000 plus the length of the sheet stack it
    reads. On desktop the panel of the default dialog has z-index
    [99 + index], which grows strictly with the index; a descriptor with a
    container of its own gets no z-index from its index. *)
Theorem DrawerStack_renders_in_order (env : nat -> View.Env)
    (stack : list Item) :
  View.DrawerStack false env stack = None /\
  exists els,
    View.DrawerStack true env stack = Some els /\
    length els = length stack /\
    List.map View.key_of els = ids stack /\
    (forall i item, stack !! i = Some item ->
       els !! i = Some (View.Modal (env i) item i) /\
       (View.isMobile (env i) = true ->
          View.zIndex_of (View.Modal (env i) item i)
          = Some (1000 + Z.of_nat (View.drawerLength (env i)))%Z) /\
       (View.isMobile (env i) = false ->
          CustomModalComponent (item_props item) = None ->
          View.zIndex_of (View.Modal (env i) item i)
          = Some (99 + Z.of_nat i)%Z) /\
       (View.isMobile (env i) = false ->
          CustomModalComponent (item_props item) <> None ->
          View.zIndex_of (View.Modal (env i) item i) = None)) /\
    (forall i j ei ej zi zj, i < j ->
       els !! i = Some ei -> els !! j = Some ej ->
       View.isMobile (env i) = false -> View.isMobile (env j) = false ->
       View.zIndex_of ei = Some zi -> View.zIndex_of ej = Some zj ->
       (zi < zj)%Z).
Proof.
  split; [done|].
  exists (imap (fun index item => View.Modal (env index) item index) stack).
  split; [done|]. split; [apply length_imap|].
  assert (Hlook : forall i item, stack !! i = Some item ->
            imap (fun index item => View.Modal (env index) item index) stack !! i
            = Some (View.Modal (env i) item i)).
  { intros i item H. rewrite list_lookup_imap, H. done. }
  split.
  { apply imap_keys. intros. apply Modal_key. }
  split.
  - intros i item H. split; [by apply Hlook|].
    rewrite Modal_zIndex. split; [by intros ->|].
    split; [by intros -> ->|].
    intros ->. by destruct (CustomModalComponent (item_props item)).
  - intros i j ei ej zi zj Hij Hi Hj Mi Mj Zi Zj.
    rewrite list_lookup_imap in Hi, Hj.
    destruct (stack !! i) as [xi|]; [|done].
    destruct (stack !! j) as [xj|]; [|done].
    simpl in Hi, Hj. injection Hi as <-. injection Hj as <-.
    rewrite Modal_zIndex, Mi in Zi. rewrite Modal_zIndex, Mj in Zj.
    destruct (CustomModalComponent (item_props xi)); [done|].
    destruct (CustomModalComponent (item_props xj)); [done|].
    injection Zi as <-. injection Zj as <-. lia.
Qed.

(** C10, as the spec states it, fails for descriptors with a container of
    their own: on desktop, with the client ready, two such descriptors are
    rendered with no z-index from their index (neither 99 nor 100). And
    before the client is ready nothing is rendered for a descriptor. *)
Lemma custom_container_ignores_index :
  (exists e0 e1,
     View.DrawerStack true (fun _ => Sample.desktop)
       [Sample.custom "a"; Sample.custom "b"] = Some [e0; e1] /\
     View.zIndex_of e0 <> Some 99%Z /\ View.zIndex_of e1 <> Some 100%Z) /\
  View.DrawerStack false (fun _ => Sample.desktop) [Sample.item "A" "a"] = None.
Proof.
  split; [|reflexivity].
  eexists. eexists. split; [reflexivity|]. split; discriminate.
Qed.

(** Two default dialogs on desktop: z-indices 99 and 100, in stack order. *)
Lemma DrawerStack_renders_in_order_witness :
  exists els,
    View.DrawerStack true (fun _ => Sample.desktop)
      [Sample.item "A" "a"; Sample.item "B" "b"] = Some els /\
    List.map View.zIndex_of els = [Some 99%Z; Some 100%Z] /\
    List.map View.key_of els = ["a"; "b"].
Proof.
  destruct (DrawerStack_renders_in_order (fun _ => Sample.desktop)
              [Sample.item "A" "a"; Sample.item "B" "b"])
    as (_ & els & E & _ & K & _).
  exists els. split; [exact E|]. split; [|exact K].
  vm_compute in E. injection E as <-. reflexivity.
Defined.

(* ===================================================================== *)
(** ** The handlers of an element *)
(* ===================================================================== *)

Lemma do_close_trace item g : View.trace (View.do_close item g) = View.trace g.
Proof. reflexivity. Qed.

Lemma do_close_stack item g :
  Store.modalStack (View.store (View.do_close item g))
  = JS.filter (fun modal => JS.strict_neq (item_id modal) (item_id item))
      (Store.modalStack (View.store g)).
Proof. reflexivity. Qed.

Lemma do_close_removes item g :
  item_id item ∉ ids (Store.modalStack (View.store (View.do_close item g))).
Proof.
  rewrite do_close_stack. intros H. apply ids_elem in H as (m & Hm & E).
  apply filter_elem in Hm as [_ Hm]. apply strict_neq_true in Hm. done.
Qed.

(** The path of [onOpenChange(false)]: the entry is removed, then the
    [onClose] of the descriptor runs once, and sees a stack without it. *)
Lemma do_onClose_calls_after_removal item c g :
  onClose (item_props item) = Some c ->
  let g' := View.do_onClose item false g in
  exists live,
    View.trace g' = View.trace g ++ [View.Called c live] /\
    live = ids (Store.modalStack (View.store g')) /\
    (item_id item ∉ live) /\
    View.calls c (View.trace g') = S (View.calls c (View.trace g)).
Proof.
  intros Hc. simpl. unfold View.do_onClose. simpl. rewrite Hc.
  eexists. split; [reflexivity|]. split; [reflexivity|].
  split; [apply do_close_removes|].
  simpl. unfold View.calls. rewrite List.filter_app, length_app. simpl.
  destruct c as [n]. rewrite Nat.eqb_refl. simpl. lia.
Qed.

(** C2 (the code departs from the claim): a descriptor with an [onClose]
    and [clickOutsideToDismiss: true], alone in the stack and rendered on
    desktop with the default dialog. A click on the backdrop runs
    [dismiss], which removes the entry and never calls [onClose]; so do the
    [dismiss] the content is given (it is [close]), [actions.dismiss] and
    [actions.dismissAll]. The path of [onOpenChange(false)] calls it once,
    after the removal; a click on the close button takes that path too,
    since the primitive calls [onOpenChange(false)] after the [onClick] it
    was given. *)
Theorem backdrop_dismiss_skips_onClose :
  let g := Sample.page [Sample.closable] in
  let c := CallbackRef 7 in
  onClose (item_props Sample.closable) = Some c /\
  View.backdrop_onClick (View.Modal Sample.desktop Sample.closable 0)
    = Some View.Hdismiss /\
  (let g' := View.step g (View.BackdropClick Sample.desktop Sample.closable 0 0) in
   Store.modalStack (View.store g') = [] /\
   View.trace g' = [View.StoppedPropagation] /\
   View.calls c (View.trace g') = 0) /\
  (let g' := View.step g (View.ContentDismiss Sample.closable) in
   Store.modalStack (View.store g') = [] /\ View.calls c (View.trace g') = 0) /\
  (let g' := View.step g (View.Action (Store.Dismiss ":r0:-0")) in
   Store.modalStack (View.store g') = [] /\ View.calls c (View.trace g') = 0) /\
  (let g' := View.step g (View.Action Store.DismissAll) in
   Store.modalStack (View.store g') = [] /\ View.calls c (View.trace g') = 0) /\
  (let g' := View.step g (View.OpenChange Sample.closable false) in
   Store.modalStack (View.store g') = [] /\
   View.trace g' = [View.Called c []] /\
   View.calls c (View.trace g') = 1) /\
  (let g' := View.run g [View.CloseButtonClick Sample.closable;
                         View.OpenChange Sample.closable false] in
   Store.modalStack (View.store g') = [] /\
   View.trace g' = [View.Called c []] /\
   View.calls c (View.trace g') = 1).
Proof. vm_compute. repeat split. Qed.

(* ===================================================================== *)
(** ** The pulse of [noticeModal] along a run of the page *)
(* ===================================================================== *)

Lemma continuation_trace inst g :
  View.trace (View.continuation inst g)
  = if View.isUnmounted inst g then View.trace g
    else View.trace g ++ [View.Started inst View.settle].
Proof. unfold View.continuation, View.isUnmounted. by case_bool_decide. Qed.

Lemma take_first_app inst l : exists w, View.take_first inst (l ++ [inst]) = Some w.
Proof.
  induction l as [|x l [w IH]]; simpl.
  - rewrite Nat.eqb_refl. eauto.
  - destruct (Nat.eqb x inst); [eauto|]. rewrite IH. simpl. eauto.
Qed.

(** One input adds at most one event; the second step of a pulse of [inst]
    is added only while [inst] is mounted; instances stay unmounted. *)
Lemma step_events inst g i :
  exists es,
    View.trace (View.step g i) = View.trace g ++ es /\
    (forall j, j ∈ View.unmounted g -> j ∈ View.unmounted (View.step g i)) /\
    (es = [] \/
     exists e, es = [e] /\
       (View.is_settle inst e = true -> inst ∉ View.unmounted g) /\
       (e = View.Unmounted inst -> inst ∈ View.unmounted (View.step g i))).
Proof.
  destruct i as [env item index k|item|item|item open|k|k|k|o]; simpl.
  - destruct (View.backdrop_onClick (View.Modal env item index)) as [[]|].
    + exists []. rewrite app_nil_r. auto.
    + exists []. rewrite app_nil_r. auto.
    + exists [View.StoppedPropagation]. split; [done|]. split; [done|].
      right. eexists. split; [done|]. split; [discriminate|discriminate].
    + exists [View.Started k View.pulse]. split; [done|]. split; [done|].
      right. eexists. split; [done|]. split; [|discriminate].
      simpl. rewrite andb_true_iff. intros [_ H]. discriminate.
    + exists [View.StoppedPropagation]. split; [done|]. split; [done|].
      right. eexists. split; [done|]. split; [discriminate|discriminate].
    + exists []. rewrite app_nil_r. auto.
  - exists []. rewrite app_nil_r. auto.
  - exists []. rewrite app_nil_r. auto.
  - unfold View.do_onClose. destruct open; simpl.
    + exists []. rewrite app_nil_r. auto.
    + destruct (onClose (item_props item)) as [c|].
      * eexists [_]. split; [done|]. split; [done|].
        right. eexists. split; [done|]. split; [discriminate|discriminate].
      * exists []. rewrite app_nil_r. auto.
  - exists [View.Started k View.enterStyle]. split; [done|]. split; [done|].
    right. eexists. split; [done|]. split; [|discriminate].
    simpl. rewrite andb_true_iff. intros [_ H]. discriminate.
  - destruct (View.take_first k (View.waiting g)) as [w|].
    + unfold View.continuation, View.isUnmounted. simpl.
      case_bool_decide as Hk.
      * exists []. rewrite app_nil_r. auto.
      * exists [View.Started k View.settle]. split; [done|]. split; [done|].
        right. eexists. split; [done|]. split; [|discriminate].
        simpl. rewrite andb_true_iff. intros [H _].
        apply Nat.eqb_eq in H. by subst.
    + exists []. rewrite app_nil_r. auto.
  - exists [View.Unmounted k]. split; [done|].
    split; [intros j Hj; by constructor|].
    right. eexists. split; [done|]. split; [discriminate|].
    intros [= ->]. constructor.
  - exists []. rewrite app_nil_r. auto.
Qed.

Lemma run_events inst inputs g :
  exists new,
    View.trace (View.run g inputs) = View.trace g ++ new /\
    View.settle_after_unmount inst new = false /\
    (inst ∈ View.unmounted g -> existsb (View.is_settle inst) new = false).
Proof.
  revert g. induction inputs as [|i inputs IH]; intros g.
  - exists []. by rewrite app_nil_r.
  - destruct (step_events inst g i) as (es & E & Hmono & Hes).
    destruct (IH (View.step g i)) as (new & E' & Hsafe & Hun).
    exists (es ++ new). simpl. rewrite E', E, app_assoc.
    split; [done|].
    destruct Hes as [->|(e & -> & Hsettle & Hunm)]; simpl.
    + split; [done|]. intros H. apply Hun, Hmono, H.
    + split.
      * rewrite Hsafe, orb_false_r. destruct e as [| |j t|j]; try done.
        destruct (Nat.eqb j inst) eqn:Ej; [|done].
        apply Nat.eqb_eq in Ej as ->. simpl. apply Hun. by apply Hunm.
      * intros H. rewrite (Hun (Hmono _ H)), orb_false_r.
        destruct (View.is_settle inst e) eqn:Ee; [|done].
        by destruct (Hsettle eq_refl).
Qed.

Lemma notice_then_done inst g :
  View.trace (View.step (View.do_noticeModal inst g) (View.AnimationDone inst))
  = if View.isUnmounted inst g
    then View.trace g ++ [View.Started inst View.pulse]
    else (View.trace g ++ [View.Started inst View.pulse])
           ++ [View.Started inst View.settle].
Proof.
  destruct (take_first_app inst (View.waiting g)) as [w Hw].
  simpl in *. rewrite Hw. unfold View.continuation, View.isUnmounted. simpl.
  by case_bool_decide.
Qed.

Lemma notice_unmount_done inst g :
  View.trace (View.run (View.do_noticeModal inst g)
                [View.Unmount inst; View.AnimationDone inst])
  = (View.trace g ++ [View.Started inst View.pulse]) ++ [View.Unmounted inst].
Proof.
  destruct (take_first_app inst (View.waiting g)) as [w Hw].
  simpl in *. rewrite Hw. unfold View.continuation, View.isUnmounted. simpl.
  rewrite bool_decide_eq_true_2 by constructor. done.
Qed.

(** C9, as the code has it: for a descriptor without a container of its
    own whose [clickOutsideToDismiss] is false or absent, rendered on
    desktop, the backdrop's handler is [noticeModal]; a click on the
    backdrop leaves the store as it is and starts the pulse once (scale
    1.05, duration 0.06); when that animation is done the element returns
    to scale 1 if it is still mounted and does nothing if it unmounted in
    between; and whatever happens on the page afterwards, no return to
    scale 1 of this element is started after the element unmounted. *)
Theorem backdrop_click_notices (env : View.Env) (item : Item)
    (index inst : nat) (g : View.Page) :
  View.isMobile env = false ->
  CustomModalComponent (item_props item) = None ->
  View.truthy (clickOutsideToDismiss (item_props item)) = false ->
  let g' := View.step g (View.BackdropClick env item index inst) in
  View.backdrop_onClick (View.Modal env item index) = Some View.HnoticeModal /\
  View.store g' = View.store g /\
  View.trace g' = View.trace g ++ [View.Started inst View.pulse] /\
  View.scale View.pulse = Some 1.05%Q /\
  View.transition_duration View.pulse = Some 0.06%Q /\
  View.scale View.settle = Some 1%Q /\
  View.trace (View.step g' (View.AnimationDone inst))
    = (if View.isUnmounted inst g then View.trace g'
       else View.trace g' ++ [View.Started inst View.settle]) /\
  View.trace (View.run g' [View.Unmount inst; View.AnimationDone inst])
    = View.trace g' ++ [View.Unmounted inst] /\
  (forall inputs, exists new,
     View.trace (View.run g' inputs) = View.trace g' ++ new /\
     View.settle_after_unmount inst new = false).
Proof.
  intros Hm Hc Ht. cbv zeta.
  assert (Hh : View.backdrop_onClick (View.Modal env item index)
               = Some View.HnoticeModal).
  { unfold View.Modal. rewrite Hm, Hc, Ht. done. }
  split; [exact Hh|].
  cbn [View.step]. rewrite Hh. cbn [View.click].
  split; [done|]. split; [done|]. split; [done|]. split; [done|].
  split; [done|]. split; [|split].
  - apply notice_then_done.
  - apply notice_unmount_done.
  - intros inputs. destruct (run_events inst inputs
                               (View.do_noticeModal inst g))
      as (new & E & Hs & _). eauto.
Qed.

(** One click on the backdrop of a default dialog, then the end of the
    pulse, with and without an unmount in between. *)
Lemma backdrop_click_notices_witness :
  let g := Sample.page [Sample.item "A" "a"] in
  let g' := View.step g
              (View.BackdropClick Sample.desktop (Sample.item "A" "a") 0 0) in
  View.store g' = View.store g /\
  View.trace g' = [View.Started 0 View.pulse] /\
  View.trace (View.step g' (View.AnimationDone 0))
    = [View.Started 0 View.pulse; View.Started 0 View.settle] /\
  View.trace (View.run g' [View.Unmount 0; View.AnimationDone 0])
    = [View.Started 0 View.pulse; View.Unmounted 0].
Proof.
  pose proof (backdrop_click_notices Sample.desktop (Sample.item "A" "a") 0 0
                (Sample.page [Sample.item "A" "a"])
                eq_refl eq_refl eq_refl) as H.
  cbv zeta in H. destruct H as (_ & H1 & H2 & _ & _ & _ & H3 & H4 & _).
  cbv zeta. split; [exact H1|]. split; [exact H2|].
  split; [exact H3 | exact H4].
Defined.

(** C9, as the spec states it, fails for a descriptor with a container of
    its own: with [clickOutsideToDismiss: false] the backdrop has no click
    handler, and a click on it starts no animation. *)
Lemma custom_container_click_is_silent :
  let item := Sample.custom "a" in
  clickOutsideToDismiss (item_props item) = Some false /\
  View.backdrop_onClick (View.Modal Sample.desktop item 0) = None /\
  View.step (Sample.page [item]) (View.BackdropClick Sample.desktop item 0 0)
    = Sample.page [item] /\
  View.trace
    (View.step (Sample.page [item])
       (View.BackdropClick Sample.desktop item 0 0)) = [].
Proof. repeat split. Qed.

(* ===================================================================== *)
(** ** Further facts *)
(* ===================================================================== *)

(** X2: every id synthesized along a program is new, whether the call that
    synthesized it passed an id of its own or not: the ids captured by the
    returned closures are pairwise distinct. *)
Lemma captured_ids_distinct (os : list App.Op) :
  NoDup (App.closures (App.run App.init os)).
Proof.
  assert (H : forall os w,
    NoDup (App.closures w) /\
    (forall x, x ∈ App.closures w ->
       exists scope k, x = Store.modalId scope k /\ (k < counter w scope)%N) ->
    NoDup (App.closures (App.run w os)) /\
    (forall x, x ∈ App.closures (App.run w os) ->
       exists scope k, x = Store.modalId scope k
                       /\ (k < counter (App.run w os) scope)%N)).
  { clear os. induction os as [|o os IH]; intros w Inv; [done|].
    simpl. apply IH. destruct Inv as [Hnd Hiss].
    destruct o as [scope props pid|k|id| |]; simpl; try done.
    - assert (Hfresh : Store.modalId scope (counter w scope) ∉ App.closures w).
      { intros Hin. destruct (Hiss _ Hin) as (sc & k & E & Hk).
        apply modalId_inj in E as [<- <-]. lia. }
      split.
      + apply NoDup_app. split; [done|]. split; [|apply NoDup_singleton].
        intros x Hx Hx'. apply list_elem_of_singleton in Hx'. by subst.
      + intros x Hx. apply elem_of_app in Hx as [Hx|Hx].
        * destruct (Hiss _ Hx) as (sc & k & -> & Hk). exists sc, k.
          split; [done|]. unfold counter in *. simpl.
          destruct (decide (scope = sc)) as [->|Hne].
          -- rewrite lookup_insert_eq. simpl. lia.
          -- by rewrite lookup_insert_ne.
        * apply list_elem_of_singleton in Hx as ->.
          exists scope, (counter w scope). split; [done|].
          unfold counter. simpl. rewrite lookup_insert_eq. simpl. lia.
    - by destruct (App.closures w !! k). }
  apply (H os App.init). split; [constructor|].
  intros x Hx. inversion Hx.
Qed.

(** The defect behind C1 in general: an entry presented with an id of its
    own that differs from the synthesized one is still in the stack after
    its closure ran. *)
Lemma closure_keeps_any_explicit_id h props pid s :
  pid <> Store.modalId (Store.id h) (Store.currentCount h) ->
  let r := Store.present h props (Some pid) s in
  {| item_props := props; item_id := pid |}
    ∈ Store.modalStack (Store.closure (Store.captured r) (Store.store_after r)).
Proof.
  intros Hne. simpl. apply filter_elem. split.
  - unfold JS.concat. apply elem_of_app. right. constructor.
  - by apply strict_neq_true.
Qed.

(* ===================================================================== *)
(** ** Further properties of the store *)
(* ===================================================================== *)

(** X1: the template [`${id}-${count}`] gives the same id exactly for the
    same scope id and the same count, whatever characters the scope id
    holds (dashes and digits included). *)
Theorem modalId_determines_scope_and_count (s1 s2 : string) (n1 n2 : N) :
  Store.modalId s1 n1 = Store.modalId s2 n2 <-> s1 = s2 /\ n1 = n2.
Proof.
  split; [apply modalId_inj|]. by intros [-> ->].
Qed.

(** X3: in a state reached without ids of the caller's own, a call of
    [present] without an id followed by a call of the closure it returned
    gives back the stack as it was. *)
Theorem present_then_closure_restores (os : list App.Op) (scope : string)
    (props : ModalProps) :
  App.synthesized_only os = true ->
  let w := App.run App.init os in
  Store.modalStack
    (App.store (App.run w [App.Present scope props None;
                           App.CallClosure (length (App.closures w))]))
  = Store.modalStack (App.store w).
Proof.
  intros Hs w.
  destruct (run_keeps_ids_distinct os App.init Hs) as [_ Hiss].
  { split; [constructor|]. intros x Hx. inversion Hx. }
  fold w in Hiss.
  cbn [App.run fold_left App.step App.closures].
  rewrite lookup_app_r by done. rewrite Nat.sub_diag. cbn [lookup list_lookup].
  cbn [App.store].
  apply (closure_undoes_synthesized (App.hook w scope) props (App.store w)).
  intros Hin. destruct (Hiss _ Hin) as (sc & k & E & Hk).
  apply modalId_inj in E as [<- <-]. unfold counter in Hk. simpl in Hk. lia.
Qed.

(** A call and its closure after two other calls and a [dismiss]. *)
Lemma present_then_closure_restores_witness :
  let w := App.run App.init
             [App.Present ":r0:" (Sample.props "A") None;
              App.Present ":r1:" (Sample.props "B") None;
              App.Dismiss ":r0:-0"] in
  Store.modalStack
    (App.store (App.run w [App.Present ":r0:" (Sample.props "C") None;
                           App.CallClosure (length (App.closures w))]))
  = Store.modalStack (App.store w).
Proof.
  apply (present_then_closure_restores
           [App.Present ":r0:" (Sample.props "A") None;
            App.Present ":r1:" (Sample.props "B") None;
            App.Dismiss ":r0:-0"] ":r0:" (Sample.props "C")).
  reflexivity.
Defined.

(** X4: [present] keeps the entries of the stack in place and puts the new
    entry last, with the id of the caller or else the synthesized one; a
    [dismissTop] right after it gives back the stack as it was, whichever
    id the entry carries. *)
Theorem present_then_dismissTop (h : Store.Hook) (props : ModalProps)
    (pid : option string) (s : Store.t) :
  let r := Store.present h props pid s in
  exists m,
    Store.modalStack (Store.store_after r) = Store.modalStack s ++ [m] /\
    item_props m = props /\
    item_id m = default (Store.captured r) pid /\
    Store.modalStack (Store.dismissTop (Store.store_after r))
      = Store.modalStack s.
Proof.
  cbv zeta. eexists. split; [reflexivity|]. split; [reflexivity|].
  split; [reflexivity|]. simpl. unfold JS.concat. apply slice_init.
Qed.

(** X5: a program of returned closures and shared [actions] never adds or
    reorders entries (what is left is a sublist of the stack it started
    from) and never writes the side table. *)
Theorem removals_shrink_stack (os : list Store.Op) (s : Store.t) :
  removals_only os = true ->
  Store.modalStack (Store.apply_all os s) `sublist_of` Store.modalStack s /\
  Store.modalIdToPropsMap (Store.apply_all os s) = Store.modalIdToPropsMap s.
Proof.
  revert s. induction os as [|o os IH]; intros s H; [done|].
  simpl in H. apply andb_true_iff in H as [Ho Hos].
  destruct (IH (Store.apply o s) Hos) as [Hsub Htbl].
  change (Store.apply_all (o :: os) s)
    with (Store.apply_all os (Store.apply o s)).
  split.
  - etrans; [exact Hsub|]. apply apply_removal_sublist.
    by destruct o.
  - rewrite Htbl. by destruct o.
Qed.

Lemma removals_shrink_stack_witness :
  let s := Sample.stack [Sample.item "A" "a"; Sample.item "B" "b";
                         Sample.item "C" "c"] in
  let os := [Store.Dismiss "b"; Store.DismissTop; Store.Closure "zz"] in
  Store.modalStack (Store.apply_all os s) `sublist_of` Store.modalStack s /\
  Store.modalIdToPropsMap (Store.apply_all os s) = Store.modalIdToPropsMap s.
Proof.
  apply (removals_shrink_stack
           [Store.Dismiss "b"; Store.DismissTop; Store.Closure "zz"]
           (Sample.stack [Sample.item "A" "a"; Sample.item "B" "b";
                          Sample.item "C" "c"])).
  reflexivity.
Defined.

(** X6: two calls of [dismiss] give the same store in either order. *)
Theorem dismiss_commutes (a b : string) (s : Store.t) :
  Store.dismiss a (Store.dismiss b s) = Store.dismiss b (Store.dismiss a s).
Proof.
  unfold Store.dismiss, Store.set. simpl. f_equal.
  induction (Store.modalStack s) as [|x p IH]; simpl; [done|].
  destruct (JS.strict_neq (item_id x) a) eqn:Ea;
    destruct (JS.strict_neq (item_id x) b) eqn:Eb; simpl;
    rewrite ?Ea, ?Eb; by rewrite ?IH.
Qed.

(** X10: [dismiss] called with the id the presented entry carries takes that
    entry out again, whether the id was the caller's or synthesized: the
    stack is the one [dismiss] gives without the call of [present]. *)
Theorem dismiss_removes_presented (h : Store.Hook) (props : ModalProps)
    (pid : option string) (s : Store.t) :
  let r := Store.present h props pid s in
  let id := default (Store.captured r) pid in
  Store.modalStack (Store.dismiss id (Store.store_after r))
    = Store.modalStack (Store.dismiss id s) /\
  id ∉ ids (Store.modalStack (Store.dismiss id (Store.store_after r))).
Proof.
  cbv zeta. split.
  - simpl. unfold JS.concat. rewrite filter_app. simpl.
    replace (JS.strict_neq _ _) with false
      by (symmetry; by apply strict_neq_false).
    apply app_nil_r.
  - rewrite dismiss_stack. intros H. apply ids_elem in H as (m & Hm & E).
    apply filter_elem in Hm as [_ Hm]. by apply strict_neq_true in Hm.
Qed.

(** *** The side table *)

(** What the side table and the stack keep of each other. *)
Lemma table_invariant_step (o : Store.Op) (s : Store.t) :
  (forall k m, Store.modalIdToPropsMap s !! k = Some m -> item_id m = k) /\
  (forall m, m ∈ Store.modalStack s -> item_id m <> "__proto__" ->
     is_Some (Store.modalIdToPropsMap s !! item_id m)) ->
  (forall k m, Store.modalIdToPropsMap (Store.apply o s) !! k = Some m ->
     item_id m = k) /\
  (forall m, m ∈ Store.modalStack (Store.apply o s) ->
     item_id m <> "__proto__" ->
     is_Some (Store.modalIdToPropsMap (Store.apply o s) !! item_id m)).
Proof.
  intros [Hkey Hcov].
  destruct o as [h props pid|c|id| |].
  - simpl. split.
    + intros k m Hk. apply assign_lookup_Some in Hk as [(<- & <- & _)|Hk];
        [done | by apply Hkey].
    + intros m Hm Hp. unfold JS.concat in Hm.
      apply elem_of_app in Hm as [Hm|Hm].
      * by apply assign_keeps_keys, Hcov.
      * apply list_elem_of_singleton in Hm as ->. simpl in *.
        rewrite assign_lookup_eq by done. eauto.
  - split; [exact Hkey|]. intros m Hm. apply Hcov.
    eapply elem_of_sublist; [exact Hm|].
    apply (apply_removal_sublist (Store.Closure c)). done.
  - split; [exact Hkey|]. intros m Hm. apply Hcov.
    eapply elem_of_sublist; [exact Hm|].
    apply (apply_removal_sublist (Store.Dismiss id)). done.
  - split; [exact Hkey|]. intros m Hm. apply Hcov.
    eapply elem_of_sublist; [exact Hm|].
    apply (apply_removal_sublist Store.DismissTop). done.
  - split; [exact Hkey|]. intros m Hm. inversion Hm.
Qed.

(** X7: after any program from the initial store, ids of the caller's own
    included, the record the side table holds under a key carries that key
    as its id, and the side table has an entry for the id of every entry
    of the stack whose id is not [__proto__]. (The table is a plain
    object: an assignment under the key [__proto__] sets its prototype and
    adds no key, so an entry with that id has no entry in the table.) *)
Theorem table_covers_stack (os : list Store.Op) :
  let s := Store.apply_all os Store.init in
  (forall k m, Store.modalIdToPropsMap s !! k = Some m -> item_id m = k) /\
  (forall m, m ∈ Store.modalStack s -> item_id m <> "__proto__" ->
     is_Some (Store.modalIdToPropsMap s !! item_id m)) /\
  Store.modalIdToPropsMap s !! "__proto__" = None.
Proof.
  cbv zeta. induction os as [|o os IH] using rev_ind.
  - split; [intros k m H; simpl in H; by rewrite lookup_empty in H|].
    split; [intros m H; inversion H | done].
  - unfold Store.apply_all. rewrite fold_left_app. simpl.
    destruct IH as (IH1 & IH2 & IH3).
    destruct (table_invariant_step o
                (fold_left (fun s o => Store.apply o s) os Store.init))
      as [H1 H2]; [done|].
    split; [exact H1|]. split; [exact H2|].
    fold (Store.apply_all os Store.init) in *.
    destruct o as [h props pid|c|id| |]; try exact IH3.
    simpl. unfold JS.assign.
    destruct (String.eqb _ "__proto__") eqn:E; [exact IH3|].
    apply String.eqb_neq in E. by rewrite lookup_insert_ne.
Qed.

(** X9: no operation removes a key from the side table: an id that was
    presented once keeps its entry through every later program, closures,
    [dismiss], [dismissTop] and [dismissAll] included. *)
Theorem table_never_shrinks (os : list Store.Op) (s : Store.t) (k : string) :
  is_Some (Store.modalIdToPropsMap s !! k) ->
  is_Some (Store.modalIdToPropsMap (Store.apply_all os s) !! k).
Proof.
  revert s. induction os as [|o os IH]; intros s H; [done|].
  change (Store.apply_all (o :: os) s)
    with (Store.apply_all os (Store.apply o s)).
  apply IH. destruct o as [h props pid|c|id| |]; try done.
  simpl. by apply assign_keeps_keys.
Qed.

(** The entry of a presented id is still in the table after
    [dismissAll]. *)
Lemma table_never_shrinks_witness :
  let s := Store.store_after
             (Store.present Sample.hook (Sample.props "A") None Store.init) in
  is_Some (Store.modalIdToPropsMap
             (Store.apply_all [Store.DismissAll; Store.DismissTop] s)
           !! ":r0:-0").
Proof.
  apply (table_never_shrinks [Store.DismissAll; Store.DismissTop]
           (Store.store_after
              (Store.present Sample.hook (Sample.props "A") None Store.init))
           ":r0:-0").
  vm_compute. eauto.
Defined.

Lemma table_exact_step (w : App.t) (o : App.Op) :
  App.synthesized_only [o] = true ->
  ids_issued w ->
  (forall m, m ∈ Store.modalStack (App.store w) ->
     Store.modalIdToPropsMap (App.store w) !! item_id m = Some m) ->
  forall m, m ∈ Store.modalStack (App.store (App.step w o)) ->
    Store.modalIdToPropsMap (App.store (App.step w o)) !! item_id m = Some m.
Proof.
  intros Hs Hiss Htbl.
  assert (Hrem : forall o', match o' with Store.Present _ _ _ => False | _ => True end ->
            forall m, m ∈ Store.modalStack (Store.apply o' (App.store w)) ->
            Store.modalIdToPropsMap (App.store w) !! item_id m = Some m).
  { intros o' Ho m Hm. apply Htbl.
    eapply elem_of_sublist; [exact Hm|]. by apply apply_removal_sublist. }
  destruct o as [scope props pid|k|id| |].
  - destruct pid as [pid|]; [discriminate|].
    intros m Hm. simpl in *. unfold JS.concat in Hm.
    apply elem_of_app in Hm as [Hm|Hm].
    + rewrite assign_lookup_ne; [by apply Htbl|].
      intros E. destruct (Hiss (item_id m)) as (sc & k & E' & Hk).
      { apply ids_elem. eauto. }
      rewrite E' in E. apply modalId_inj in E as [<- <-].
      unfold counter in Hk. lia.
    + apply list_elem_of_singleton in Hm as ->. simpl.
      apply assign_lookup_eq, modalId_not_proto.
  - simpl. destruct (App.closures w !! k) as [c|]; [|exact Htbl].
    exact (Hrem (Store.Closure c) I).
  - exact (Hrem (Store.Dismiss id) I).
  - exact (Hrem Store.DismissTop I).
  - exact (Hrem Store.DismissAll I).
Qed.

Lemma table_exact_run (os : list App.Op) (w : App.t) :
  App.synthesized_only os = true ->
  NoDup (ids (Store.modalStack (App.store w))) /\ ids_issued w ->
  (forall m, m ∈ Store.modalStack (App.store w) ->
     Store.modalIdToPropsMap (App.store w) !! item_id m = Some m) ->
  forall m, m ∈ Store.modalStack (App.store (App.run w os)) ->
    Store.modalIdToPropsMap (App.store (App.run w os)) !! item_id m = Some m.
Proof.
  revert w. induction os as [|o os IH]; intros w Hs Inv Htbl; [exact Htbl|].
  simpl in Hs. apply andb_true_iff in Hs as [Ho Hos].
  assert (Ho' : App.synthesized_only [o] = true) by (simpl; by rewrite Ho).
  simpl. apply IH; [done| |].
  - by apply step_keeps_ids_distinct.
  - apply table_exact_step; [done | apply Inv | done].
Qed.

(** X8: in a state reached without ids of the caller's own, the side table
    maps the id of every entry of the stack to that very entry. *)
Theorem table_holds_live_entries (os : list App.Op) (m : Item) :
  App.synthesized_only os = true ->
  m ∈ Store.modalStack (App.store (App.run App.init os)) ->
  Store.modalIdToPropsMap (App.store (App.run App.init os)) !! item_id m
  = Some m.
Proof.
  intros Hs. apply table_exact_run; [done| |].
  - split; [constructor|]. intros x Hx. inversion Hx.
  - intros x Hx. inversion Hx.
Qed.

Lemma table_holds_live_entries_witness :
  let os := [App.Present ":r0:" (Sample.props "A") None;
             App.Present ":r0:" (Sample.props "B") None;
             App.Dismiss ":r0:-0"] in
  Store.modalIdToPropsMap (App.store (App.run App.init os))
    !! item_id (Sample.item "B" ":r0:-1")
  = Some (Sample.item "B" ":r0:-1").
Proof.
  apply (table_holds_live_entries
           [App.Present ":r0:" (Sample.props "A") None;
            App.Present ":r0:" (Sample.props "B") None;
            App.Dismiss ":r0:-0"] (Sample.item "B" ":r0:-1")).
  - reflexivity.
  - vm_compute. constructor.
Defined.

(* ===================================================================== *)
(** ** Further properties of the element *)
(* ===================================================================== *)

(** X11: the three ways an element closes itself ([close], [dismiss] and
    [onClose(false)]) filter the stack on the id of its item: no entry with
    that id is left, every entry with another id stays, in order; the side
    table, the waiting continuations and the unmounted flags are as they
    were. *)
Theorem close_paths_remove_item (item : Item) (g : View.Page) :
  let removed g' :=
    Store.modalStack (View.store g')
      = JS.filter (fun m => JS.strict_neq (item_id m) (item_id item))
          (Store.modalStack (View.store g)) /\
    (item_id item ∉ ids (Store.modalStack (View.store g'))) /\
    (forall m, m ∈ Store.modalStack (View.store g) ->
       item_id m <> item_id item -> m ∈ Store.modalStack (View.store g')) /\
    Store.modalStack (View.store g')
      `sublist_of` Store.modalStack (View.store g) /\
    Store.modalIdToPropsMap (View.store g')
      = Store.modalIdToPropsMap (View.store g) /\
    View.waiting g' = View.waiting g /\
    View.unmounted g' = View.unmounted g in
  removed (View.do_close item g) /\
  removed (View.do_dismiss item g) /\
  removed (View.do_onClose item false g).
Proof.
  assert (H : forall g',
    Store.modalStack (View.store g')
      = JS.filter (fun m => JS.strict_neq (item_id m) (item_id item))
          (Store.modalStack (View.store g)) ->
    (item_id item ∉ ids (Store.modalStack (View.store g'))) /\
    (forall m, m ∈ Store.modalStack (View.store g) ->
       item_id m <> item_id item -> m ∈ Store.modalStack (View.store g')) /\
    Store.modalStack (View.store g')
      `sublist_of` Store.modalStack (View.store g)).
  { intros g' E. rewrite E. split; [|split].
    - intros Hin. apply ids_elem in Hin as (m & Hm & Em).
      apply filter_elem in Hm as [_ Hm]. by apply strict_neq_true in Hm.
    - intros m Hm Hne. apply filter_elem. split; [done|].
      by apply strict_neq_true.
    - apply filter_sublist. }
  cbv zeta. split; [|split].
  - destruct (H (View.do_close item g) eq_refl) as (H1 & H2 & H3).
    repeat (split; [done|]). done.
  - destruct (H (View.do_dismiss item g) eq_refl) as (H1 & H2 & H3).
    repeat (split; [done|]). done.
  - assert (E : Store.modalStack (View.store (View.do_onClose item false g))
                = JS.filter (fun m => JS.strict_neq (item_id m) (item_id item))
                    (Store.modalStack (View.store g))).
    { unfold View.do_onClose. simpl.
      by destruct (onClose (item_props item)). }
    destruct (H _ E) as (H1 & H2 & H3).
    split; [exact E|]. split; [exact H1|]. split; [exact H2|].
    split; [exact H3|].
    unfold View.do_onClose. simpl. by destruct (onClose (item_props item)).
Qed.

Lemma calls_snoc c tr e :
  View.calls c (tr ++ [e])
  = View.calls c tr
    + match e with
      | View.Called c' _ => if bool_decide (c' = c) then 1 else 0
      | _ => 0
      end.
Proof.
  unfold View.calls. rewrite List.filter_app, length_app. f_equal.
  destruct e as [[n] live| | |]; try done. destruct c as [m]. simpl.
  destruct (Nat.eqb n m) eqn:E.
  - apply Nat.eqb_eq in E as ->. by rewrite bool_decide_eq_true_2.
  - apply Nat.eqb_neq in E. rewrite bool_decide_eq_false_2; [done|].
    intros [= ->]. done.
Qed.

(** X12: [onOpenChange(true)] changes nothing. [onOpenChange(false)] removes
    the entry and then, when the descriptor has an [onClose], calls it
    once, and the stack it sees has no entry with the id of the item; no
    other callback is called, and none at all without an [onClose]. *)
Theorem onOpenChange_calls_onClose_once (item : Item) (g : View.Page) :
  View.do_onClose item true g = g /\
  (forall c,
     View.calls c (View.trace (View.do_onClose item false g))
     = View.calls c (View.trace g)
       + if bool_decide (onClose (item_props item) = Some c) then 1 else 0) /\
  exists new,
    View.trace (View.do_onClose item false g) = View.trace g ++ new /\
    length new <= 1 /\
    forall c live, View.Called c live ∈ new ->
      onClose (item_props item) = Some c /\
      live = ids (Store.modalStack (View.store (View.do_onClose item false g))) /\
      item_id item ∉ live.
Proof.
  split; [done|]. unfold View.do_onClose. cbn [negb].
  destruct (onClose (item_props item)) as [c0|] eqn:Ec.
  - split.
    + intros c. cbn [View.log View.trace]. rewrite calls_snoc.
      rewrite do_close_trace. f_equal.
      destruct (decide (c0 = c)) as [->|Hne].
      * by rewrite !bool_decide_eq_true_2.
      * rewrite !bool_decide_eq_false_2; [done | congruence | done].
    + eexists. split; [reflexivity|]. split; [simpl; lia|].
      intros c live Hin. apply list_elem_of_singleton in Hin.
      injection Hin as -> ->. split; [done|]. split; [done|].
      apply do_close_removes.
  - split.
    + intros c. rewrite do_close_trace.
      rewrite bool_decide_eq_false_2 by done. lia.
    + exists []. rewrite do_close_trace, app_nil_r.
      split; [done|]. split; [simpl; lia|]. intros c live Hin. inversion Hin.
Qed.

Lemma desktop_backdrop_handler env item index :
  View.isMobile env = false ->
  View.backdrop_onClick (View.Modal env item index)
  = if View.truthy (clickOutsideToDismiss (item_props item))
    then Some View.Hdismiss
    else match CustomModalComponent (item_props item) with
         | Some _ => None
         | None => Some View.HnoticeModal
         end.
Proof.
  intros Hm. unfold View.Modal. rewrite Hm.
  destruct (CustomModalComponent (item_props item));
    by destruct (View.truthy (clickOutsideToDismiss (item_props item))).
Qed.

(** X13: on desktop, a click on the backdrop of a descriptor whose
    [clickOutsideToDismiss] is false or absent never changes the store,
    with the default dialog and with a container of its own alike, calls no
    callback and unmounts nothing. *)
Theorem backdrop_click_keeps_stack (env : View.Env) (item : Item)
    (index inst : nat) (g : View.Page) :
  View.isMobile env = false ->
  View.truthy (clickOutsideToDismiss (item_props item)) = false ->
  let g' := View.step g (View.BackdropClick env item index inst) in
  View.store g' = View.store g /\
  View.unmounted g' = View.unmounted g /\
  forall c, View.calls c (View.trace g') = View.calls c (View.trace g).
Proof.
  intros Hm Ht. cbv zeta. cbn [View.step].
  rewrite desktop_backdrop_handler, Ht by done.
  destruct (CustomModalComponent (item_props item)); [done|].
  cbn [View.click]. split; [done|]. split; [done|].
  intros c. simpl. rewrite calls_snoc. lia.
Qed.

Lemma backdrop_click_keeps_stack_witness :
  let g := Sample.page [Sample.custom "a"] in
  let g' := View.step g
              (View.BackdropClick Sample.desktop (Sample.custom "a") 0 0) in
  View.store g' = View.store g /\
  View.unmounted g' = View.unmounted g /\
  forall c, View.calls c (View.trace g') = View.calls c (View.trace g).
Proof.
  apply (backdrop_click_keeps_stack Sample.desktop (Sample.custom "a") 0 0
           (Sample.page [Sample.custom "a"])); reflexivity.
Defined.

(** X14: on desktop, a click on the backdrop of a descriptor whose
    [clickOutsideToDismiss] is true, with the default dialog and with a
    container of its own alike, stops the propagation of the click and
    filters the stack on the id of the item; it starts no animation and
    leaves no continuation waiting. *)
Theorem backdrop_click_dismisses (env : View.Env) (item : Item)
    (index inst : nat) (g : View.Page) :
  View.isMobile env = false ->
  View.truthy (clickOutsideToDismiss (item_props item)) = true ->
  let g' := View.step g (View.BackdropClick env item index inst) in
  Store.modalStack (View.store g')
    = JS.filter (fun m => JS.strict_neq (item_id m) (item_id item))
        (Store.modalStack (View.store g)) /\
  (item_id item ∉ ids (Store.modalStack (View.store g'))) /\
  View.waiting g' = View.waiting g /\
  exists new,
    View.trace g' = View.trace g ++ new /\
    View.StoppedPropagation ∈ new /\
    List.filter is_start new = [].
Proof.
  intros Hm Ht. cbv zeta. cbn [View.step].
  rewrite desktop_backdrop_handler, Ht by done. cbn [View.click].
  split; [done|]. split.
  - apply (do_close_removes item (View.log View.StoppedPropagation g)).
  - split; [done|]. exists [View.StoppedPropagation].
    split; [done|]. split; [constructor | done].
Qed.

Lemma backdrop_click_dismisses_witness :
  let g := Sample.page [Sample.closable] in
  let g' := View.step g
              (View.BackdropClick Sample.desktop Sample.closable 0 0) in
  Store.modalStack (View.store g')
    = JS.filter (fun m => JS.strict_neq (item_id m) (item_id Sample.closable))
        (Store.modalStack (View.store g)) /\
  (item_id Sample.closable ∉ ids (Store.modalStack (View.store g'))) /\
  View.waiting g' = View.waiting g /\
  exists new,
    View.trace g' = View.trace g ++ new /\
    View.StoppedPropagation ∈ new /\
    List.filter is_start new = [].
Proof.
  apply (backdrop_click_dismisses Sample.desktop Sample.closable 0 0
           (Sample.page [Sample.closable])); reflexivity.
Defined.

Lemma step_without_present_shrinks (g : View.Page) (i : View.Input) :
  adds_entry i = false ->
  Store.modalStack (View.store (View.step g i))
    `sublist_of` Store.modalStack (View.store g) /\
  Store.modalIdToPropsMap (View.store (View.step g i))
    = Store.modalIdToPropsMap (View.store g).
Proof.
  intros Hi.
  assert (Hf : forall item g0,
    Store.modalStack (View.store (View.do_close item g0))
      `sublist_of` Store.modalStack (View.store g0)).
  { intros. apply filter_sublist. }
  destruct i as [env item index k|item|item|item open|k|k|k|o]; simpl.
  - destruct (View.backdrop_onClick (View.Modal env item index)) as [[]|];
      simpl; (split; [|done]); try done; apply filter_sublist.
  - split; [apply filter_sublist | done].
  - split; [apply filter_sublist | done].
  - unfold View.do_onClose. destruct open; simpl; [done|].
    destruct (onClose (item_props item)); simpl;
      (split; [apply filter_sublist | done]).
  - done.
  - destruct (View.take_first k (View.waiting g)); [|done].
    unfold View.continuation. by destruct (View.isUnmounted _ _).
  - done.
  - destruct o; try discriminate; simpl; (split; [|done]).
    + apply filter_sublist.
    + apply filter_sublist.
    + apply slice_sublist.
    + apply sublist_nil_l.
Qed.

(** X15: whatever happens on the page apart from calls of [present]
    (clicks on backdrops and close buttons, [onOpenChange], mounts,
    unmounts, ends of animations, closures and shared [actions]), no entry
    is added to the stack or moved in it, and the side table is not
    written. *)
Theorem page_without_present_shrinks (inputs : list View.Input)
    (g : View.Page) :
  no_present inputs = true ->
  Store.modalStack (View.store (View.run g inputs))
    `sublist_of` Store.modalStack (View.store g) /\
  Store.modalIdToPropsMap (View.store (View.run g inputs))
    = Store.modalIdToPropsMap (View.store g).
Proof.
  revert g. induction inputs as [|i inputs IH]; intros g H; [done|].
  simpl in H. apply andb_true_iff in H as [Hi H].
  apply negb_true_iff in Hi.
  destruct (step_without_present_shrinks g i Hi) as [S1 T1].
  destruct (IH (View.step g i) H) as [S2 T2].
  simpl. split; [by etrans | by rewrite T2].
Qed.

Lemma page_without_present_shrinks_witness :
  let g := Sample.page [Sample.closable; Sample.item "B" "b"] in
  let inputs := [View.BackdropClick Sample.desktop (Sample.item "B" "b") 1 1;
                 View.OpenChange Sample.closable false;
                 View.AnimationDone 1; View.Unmount 0;
                 View.Action (Store.Dismiss "zz")] in
  Store.modalStack (View.store (View.run g inputs))
    `sublist_of` Store.modalStack (View.store g) /\
  Store.modalIdToPropsMap (View.store (View.run g inputs))
    = Store.modalIdToPropsMap (View.store g).
Proof.
  apply (page_without_present_shrinks
           [View.BackdropClick Sample.desktop (Sample.item "B" "b") 1 1;
            View.OpenChange Sample.closable false;
            View.AnimationDone 1; View.Unmount 0;
            View.Action (Store.Dismiss "zz")]
           (Sample.page [Sample.closable; Sample.item "B" "b"])).
  reflexivity.
Defined.

(** *** Pulses and their second steps *)

Lemma count_snoc {A} (f : A -> bool) (l : list A) (x : A) :
  length (List.filter f (l ++ [x]))
  = length (List.filter f l) + if f x then 1 else 0.
Proof.
  rewrite List.filter_app, length_app. simpl. by destruct (f x).
Qed.

Lemma pending_take_first inst k l w :
  View.take_first k l = Some w ->
  pending inst l = pending inst w + if Nat.eqb inst k then 1 else 0.
Proof.
  unfold pending. revert w. induction l as [|x l IH]; intros w H; [done|].
  simpl in H. destruct (Nat.eqb x k) eqn:E.
  - injection H as <-. apply Nat.eqb_eq in E as ->. simpl.
    destruct (Nat.eqb inst k); simpl; lia.
  - destruct (View.take_first k l) as [w'|]; [|done].
    injection H as <-. simpl. specialize (IH w' eq_refl).
    destruct (Nat.eqb inst x); simpl; lia.
Qed.

Lemma not_both inst k t :
  (if is_pulse inst (View.Started k t) then 1 else 0)
  + (if View.is_settle inst (View.Started k t) then 1 else 0) <= 1.
Proof.
  simpl. destruct (Nat.eqb k inst); simpl; [|lia].
  case_bool_decide as H1; case_bool_decide as H2; try lia.
  subst t. discriminate.
Qed.

Lemma step_keeps_pulse_account inst g i :
  settles inst (View.trace g) + pending inst (View.waiting g)
    <= pulses inst (View.trace g) ->
  settles inst (View.trace (View.step g i))
  + pending inst (View.waiting (View.step g i))
    <= pulses inst (View.trace (View.step g i)).
Proof.
  intros H.
  assert (Hlog : forall e,
    is_pulse inst e = false -> View.is_settle inst e = false ->
    settles inst (View.trace g ++ [e]) + pending inst (View.waiting g)
      <= pulses inst (View.trace g ++ [e])).
  { intros e E1 E2. unfold settles, pulses in *.
    rewrite !count_snoc, E1, E2. lia. }
  destruct i as [env item index k|item|item|item open|k|k|k|o]; simpl;
    try exact H.
  - destruct (View.backdrop_onClick (View.Modal env item index)) as [[]|];
      simpl; try exact H; try (by apply Hlog).
    unfold settles, pulses, pending in *.
    rewrite !count_snoc. simpl.
    rewrite Nat.eqb_sym. destruct (Nat.eqb inst k); simpl; lia.
  - unfold View.do_onClose. destruct open; simpl; [exact H|].
    destruct (onClose (item_props item)); simpl; [by apply Hlog | exact H].
  - apply Hlog; simpl; by rewrite andb_false_r.
  - destruct (View.take_first k (View.waiting g)) as [w|] eqn:Ew; [|exact H].
    pose proof (pending_take_first inst k _ _ Ew) as Hp.
    unfold View.continuation, View.isUnmounted. simpl.
    case_bool_decide; simpl.
    + lia.
    + unfold settles, pulses in *. rewrite !count_snoc. simpl.
      rewrite andb_false_r, Nat.eqb_sym.
      destruct (Nat.eqb inst k); simpl in *; lia.
  - by apply Hlog.
Qed.

(** X16: along every run of the page from its initial state, the second
    steps of the pulses of an element that were started, together with the
    continuations of that element still waiting, never outnumber the
    pulses of that element that were started: a return to scale 1 is
    started at most once per pulse. *)
Theorem settle_at_most_once_per_pulse (inputs : list View.Input) (inst : nat) :
  let g := View.run View.init inputs in
  settles inst (View.trace g) + pending inst (View.waiting g)
    <= pulses inst (View.trace g).
Proof.
  cbv zeta. induction inputs as [|i inputs IH] using rev_ind.
  - simpl. unfold settles, pulses, pending. simpl. lia.
  - unfold View.run. rewrite fold_left_app. simpl.
    by apply step_keeps_pulse_account.
Qed.

(* ===================================================================== *)
(** ** Further properties of the renderer and of the route effect *)
(* ===================================================================== *)

(** X17: in a state reached without ids of the caller's own, the elements
    the renderer returns have pairwise distinct keys. *)
Theorem rendered_keys_distinct (os : list App.Op) (env : nat -> View.Env) :
  App.synthesized_only os = true ->
  exists els,
    View.DrawerStack true env
      (Store.modalStack (App.store (App.run App.init os))) = Some els /\
    NoDup (List.map View.key_of els).
Proof.
  intros Hs. eexists. split; [reflexivity|].
  rewrite imap_keys by (intros; apply Modal_key).
  apply (run_keeps_ids_distinct os App.init Hs).
  split; [constructor|]. intros x Hx. inversion Hx.
Qed.

Lemma rendered_keys_distinct_witness :
  exists els,
    View.DrawerStack true (fun _ => Sample.desktop)
      (Store.modalStack
         (App.store (App.run App.init
            [App.Present ":r0:" (Sample.props "A") None;
             App.Present ":r1:" (Sample.props "B") None]))) = Some els /\
    NoDup (List.map View.key_of els).
Proof.
  apply (rendered_keys_distinct
           [App.Present ":r0:" (Sample.props "A") None;
            App.Present ":r1:" (Sample.props "B") None]
           (fun _ => Sample.desktop)).
  reflexivity.
Defined.

Lemma dismissAll_twice s : Store.dismissAll (Store.dismissAll s) = Store.dismissAll s.
Proof. reflexivity. Qed.

(** X18: along successive commits, the route effect leaves the store alone
    as long as every pathname is the one of the commit before, and the
    store is [dismissAll] of the first store as soon as one pathname
    differs (the first commit differs from none); the dependency kept at
    the end is the last pathname. *)
Theorem commits_clear_on_change (last : option string)
    (pathnames : list string) (s : Store.t) :
  snd (commits last pathnames s)
    = (if forallb (fun p => bool_decide (last = Some p)) pathnames
       then s else Store.dismissAll s) /\
  fst (commits last pathnames s)
    = match pathnames with
      | [] => last
      | _ => Some (List.last pathnames "")
      end.
Proof.
  revert last s. induction pathnames as [|p rest IH]; intros last s; [done|].
  cbn [commits forallb]. unfold View.useDismissAllWhenRouterChange.
  case_bool_decide as Hp; cbn [fst snd andb].
  - subst last. destruct (IH (Some p) s) as [E1 E2]. split; [exact E1|].
    rewrite E2. by destruct rest.
  - destruct (IH (Some p) (Store.dismissAll s)) as [E1 E2]. split.
    + rewrite E1. by destruct (forallb _ rest).
    + rewrite E2. by destruct rest.
Qed.

(* ===================================================================== *)
(** ** Further properties of the heap *)
(* ===================================================================== *)

Lemma exec_all_keeps (os : list Store.Op) (h : Mem.Heap) :
  Mem.wf h ->
  exists h',
    Mem.exec_all os h = inr (tt, h') /\ Mem.wf h' /\
    Mem.arrays h ⊆ Mem.arrays h' /\ Mem.records h ⊆ Mem.records h'.
Proof.
  revert h. induction os as [|o os IH]; intros h W.
  - exists h. done.
  - destruct (exec_copy_on_write o h W) as (h1 & s1 & E & W1 & _ & _ & A & R & _).
    destruct (IH h1 W1) as (h' & E' & W' & A' & R').
    exists h'. cbn [Mem.exec_all]. unfold Mem.bind at 1. rewrite E.
    split; [exact E'|]. split; [exact W'|]. split; by etrans.
Qed.

(** X19: a reader that holds an array taken from the store at any time
    (a render that has not caught up) sees the same entries in it after
    any later program of operations: the array is still in the heap with
    the same references, and they point to the same records. *)
Theorem stale_array_keeps_entries (os1 os2 : list Store.Op) :
  exists h h',
    Mem.exec_all os1 Mem.init = inr (tt, h) /\
    Mem.exec_all os2 h = inr (tt, h') /\
    forall a l p,
      Mem.arrays h !! a = Some l -> Mem.denotes h l p ->
      Mem.arrays h' !! a = Some l /\ Mem.denotes h' l p /\
      Mem.deref h' l = Mem.deref h l.
Proof.
  destruct (exec_all_keeps os1 Mem.init init_wf) as (h & E & W & _).
  destruct (exec_all_keeps os2 h W) as (h' & E' & _ & A & R).
  exists h, h'. split; [exact E|]. split; [exact E'|].
  intros a l p Ha Hd. split; [exact (lookup_weaken _ _ _ _ Ha A)|].
  pose proof (denotes_weaken h h' l p R Hd) as Hd'.
  split; [exact Hd'|].
  apply deref_denotes in Hd. apply deref_denotes in Hd'. congruence.
Qed.
